(** * Node location resolution and raw parse-tree walking of libpg_query

    A shallow embedding of [src/postgres/src_backend_nodes_nodeFuncs.c]
    ([leftmostLoc], [exprLocation], [raw_expression_tree_walker_impl]) and of
    the entry point declared in [src/pg_query_internal.h], together with the
    properties the specification states about them. *)

From Stdlib Require Import ZArith List String Bool Lia DecimalString.
Import ListNotations.

Set Warnings "-register-all".

Local Open Scope Z_scope.

(** ** Data model

    Parse locations are C [int]s.  The code only compares and copies them, so
    they are modelled as [Z] and no wrap-around can arise. *)

(** The node tags this file dispatches on ([nodes/nodetags.h] is vendored).
    [T_Invalid] is the tag value 0 that no node carries; [T_Unlisted k] stands
    for the [k]-th tag of the engine that neither switch names (every DDL
    statement tag, [T_IntList], [T_Query], ...). *)
Module NodeTag.

Inductive t : Set :=
| T_Invalid
| T_List | T_RangeVar | T_TableFunc | T_Var | T_Const | T_Param | T_Aggref
| T_GroupingFunc | T_WindowFunc | T_SubscriptingRef | T_FuncExpr
| T_NamedArgExpr | T_OpExpr | T_DistinctExpr | T_NullIfExpr
| T_ScalarArrayOpExpr | T_BoolExpr | T_SubLink | T_FieldSelect | T_FieldStore
| T_RelabelType | T_CoerceViaIO | T_ArrayCoerceExpr | T_ConvertRowtypeExpr
| T_CollateExpr | T_CaseExpr | T_CaseWhen | T_ArrayExpr | T_RowExpr
| T_RowCompareExpr | T_CoalesceExpr | T_MinMaxExpr | T_SQLValueFunction
| T_XmlExpr | T_JsonFormat | T_JsonReturning | T_JsonValueExpr
| T_JsonConstructorExpr | T_JsonIsPredicate | T_NullTest | T_BooleanTest
| T_CoerceToDomain | T_CoerceToDomainValue | T_SetToDefault | T_CurrentOfExpr
| T_TargetEntry | T_JoinExpr | T_IntoClause | T_Alias | T_Integer | T_Float
| T_Boolean | T_String | T_BitString | T_InsertStmt | T_DeleteStmt
| T_UpdateStmt | T_MergeStmt | T_MergeWhenClause | T_SelectStmt
| T_PLAssignStmt | T_A_Expr | T_ColumnRef | T_ParamRef | T_A_Const | T_A_Star
| T_FuncCall | T_A_Indices | T_A_Indirection | T_A_ArrayExpr | T_ResTarget
| T_MultiAssignRef | T_TypeCast | T_CollateClause | T_SortBy | T_WindowDef
| T_RangeSubselect | T_RangeFunction | T_RangeTableSample | T_RangeTableFunc
| T_RangeTableFuncCol | T_TypeName | T_ColumnDef | T_Constraint
| T_FunctionParameter | T_IndexElem | T_XmlSerialize | T_GroupingSet
| T_LockingClause | T_WithClause | T_InferClause | T_OnConflictClause
| T_CTESearchClause | T_CTECycleClause | T_CommonTableExpr | T_JsonOutput
| T_JsonKeyValue | T_JsonObjectConstructor | T_JsonArrayConstructor
| T_JsonArrayQueryConstructor | T_JsonAggConstructor | T_JsonObjectAgg
| T_JsonArrayAgg | T_PlaceHolderVar | T_InferenceElem | T_PartitionElem
| T_PartitionSpec | T_PartitionBoundSpec | T_PartitionRangeDatum
| T_Unlisted (k : nat).

End NodeTag.

(** [struct CaseWhen]: one WHEN arm of a CASE expression. *)
Module CaseWhen.

Record t (N : Type) : Type := Build
  { expr : N;       (* condition expression *)
    result : N;     (* substitution result *)
    location : Z }. (* token location, or -1 if unknown *)

Arguments Build {N}.
Arguments expr {N}.
Arguments result {N}.
Arguments location {N}.

End CaseWhen.

(** [struct TypeName]: a type name as written in the source text. *)
Module TypeName.

Record t (N : Type) : Type := Build
  { names : N;        (* qualified name (list of String nodes) *)
    typmods : N;      (* type modifier expression(s) *)
    arrayBounds : N;  (* array bounds *)
    location : Z }.   (* token location, or -1 if unknown *)

Arguments Build {N}.
Arguments names {N}.
Arguments typmods {N}.
Arguments arrayBounds {N}.
Arguments location {N}.

End TypeName.

(** A value of type [Node] is what a C [Node *] designates: [NULL], or a
    node of one of the kinds below.  Each constructor carries the fields of
    its struct that the two functions read, plus the node-valued fields their
    comments name as deliberately skipped; a [location] that neither function
    reads (that of a [SortBy], say) is not carried.  A [List *] field is a [Node] like
    any other pointer ([NIL] is [NULL]); the members of a [T_List] are
    pointers and may be [NULL].  Two fields are dereferenced by the code
    without a test and are typed accordingly: the members of
    [CaseExpr.args] ([lfirst_node(CaseWhen, ...)]) and [TypeCast.typeName]. *)
Inductive Node : Type :=
| NULL
| T_List (elements : list Node)
| T_RangeVar (alias : Node) (location : Z)
| T_TableFunc (location : Z)
| T_Var (location : Z)
| T_Const (location : Z)
| T_Param (location : Z)
| T_Aggref (location : Z)
| T_GroupingFunc (args : Node) (location : Z)
| T_WindowFunc (location : Z)
| T_SubscriptingRef (refexpr : Node)
| T_FuncExpr (args : Node) (location : Z)
| T_NamedArgExpr (arg : Node) (location : Z)
| T_OpExpr (args : Node) (location : Z)
| T_DistinctExpr (args : Node) (location : Z)
| T_NullIfExpr (args : Node) (location : Z)
| T_ScalarArrayOpExpr (args : Node) (location : Z)
| T_BoolExpr (args : Node) (location : Z)
| T_SubLink (testexpr operName subselect : Node) (location : Z)
| T_FieldSelect (arg : Node)
| T_FieldStore (arg : Node)
| T_RelabelType (arg : Node) (location : Z)
| T_CoerceViaIO (arg : Node) (location : Z)
| T_ArrayCoerceExpr (arg : Node) (location : Z)
| T_ConvertRowtypeExpr (arg : Node) (location : Z)
| T_CollateExpr (arg : Node)
| T_CaseExpr (arg : Node) (args : list (CaseWhen.t Node))
    (defresult : Node) (location : Z)
| T_CaseWhen (when : CaseWhen.t Node)
| T_ArrayExpr (location : Z)
| T_RowExpr (args colnames : Node) (location : Z)
| T_RowCompareExpr (largs : Node)
| T_CoalesceExpr (args : Node) (location : Z)
| T_MinMaxExpr (args : Node) (location : Z)
| T_SQLValueFunction (location : Z)
| T_XmlExpr (named_args arg_names args : Node) (location : Z)
| T_JsonFormat (location : Z)
| T_JsonReturning (format : Node)
| T_JsonValueExpr (raw_expr formatted_expr format : Node)
| T_JsonConstructorExpr (args func coercion returning : Node)
    (location : Z)
| T_JsonIsPredicate (expr : Node) (location : Z)
| T_NullTest (arg : Node) (location : Z)
| T_BooleanTest (arg : Node) (location : Z)
| T_CoerceToDomain (arg : Node) (location : Z)
| T_CoerceToDomainValue (location : Z)
| T_SetToDefault (location : Z)
| T_CurrentOfExpr
| T_TargetEntry (expr : Node)
| T_JoinExpr (larg rarg usingClause quals alias : Node)
| T_IntoClause (rel colNames options viewQuery : Node)
| T_Alias (colnames : Node)
| T_Integer
| T_Float
| T_Boolean
| T_String
| T_BitString
| T_InsertStmt
    (relation cols selectStmt onConflictClause returningList withClause :
        Node)
| T_DeleteStmt
    (relation usingClause whereClause returningList withClause : Node)
| T_UpdateStmt
    (relation targetList whereClause fromClause returningList withClause :
        Node)
| T_MergeStmt
    (relation sourceRelation joinCondition mergeWhenClauses withClause : Node)
| T_MergeWhenClause (condition targetList values : Node)
| T_SelectStmt
    (distinctClause intoClause targetList fromClause whereClause groupClause
        havingClause windowClause valuesLists sortClause limitOffset
        limitCount lockingClause withClause larg rarg : Node)
| T_PLAssignStmt (indirection val : Node)
| T_A_Expr (name lexpr rexpr : Node) (location : Z)
| T_ColumnRef (fields : Node) (location : Z)
| T_ParamRef (location : Z)
| T_A_Const (location : Z)
| T_A_Star
| T_FuncCall (funcname args agg_order agg_filter over : Node)
    (location : Z)
| T_A_Indices (lidx uidx : Node)
| T_A_Indirection (arg indirection : Node)
| T_A_ArrayExpr (elements : Node) (location : Z)
| T_ResTarget (indirection val : Node) (location : Z)
| T_MultiAssignRef (source : Node)
| T_TypeCast (arg : Node) (typeName : TypeName.t Node) (location : Z)
| T_CollateClause (arg : Node)
| T_SortBy (node : Node)
| T_WindowDef (partitionClause orderClause startOffset endOffset : Node)
    (location : Z)
| T_RangeSubselect (subquery alias : Node)
| T_RangeFunction (functions alias coldeflist : Node)
| T_RangeTableSample (relation method args repeatable : Node)
    (location : Z)
| T_RangeTableFunc (docexpr rowexpr namespaces columns alias : Node)
| T_RangeTableFuncCol (colexpr coldefexpr : Node)
| T_TypeName (tn : TypeName.t Node)
| T_ColumnDef (typeName raw_default collClause constraints : Node)
    (location : Z)
| T_Constraint (location : Z)
| T_FunctionParameter (argType : Node)
| T_IndexElem (expr collation opclass : Node)
| T_XmlSerialize (expr typeName : Node) (location : Z)
| T_GroupingSet (content : Node) (location : Z)
| T_LockingClause (lockedRels : Node)
| T_WithClause (ctes : Node) (location : Z)
| T_InferClause (indexElems whereClause : Node) (location : Z)
| T_OnConflictClause (infer targetList whereClause : Node) (location : Z)
| T_CTESearchClause (location : Z)
| T_CTECycleClause (location : Z)
| T_CommonTableExpr (ctequery search_clause cycle_clause : Node)
    (location : Z)
| T_JsonOutput (typeName returning : Node)
| T_JsonKeyValue (key value : Node)
| T_JsonObjectConstructor (output exprs : Node) (location : Z)
| T_JsonArrayConstructor (output exprs : Node) (location : Z)
| T_JsonArrayQueryConstructor (output query : Node) (location : Z)
| T_JsonAggConstructor (output agg_order agg_filter over : Node)
    (location : Z)
| T_JsonObjectAgg (constructor arg : Node)
| T_JsonArrayAgg (constructor arg : Node)
| T_PlaceHolderVar (phexpr : Node)
| T_InferenceElem (expr : Node)
| T_PartitionElem (location : Z)
| T_PartitionSpec (location : Z)
| T_PartitionBoundSpec (location : Z)
| T_PartitionRangeDatum (location : Z)
| T_Unlisted (k : nat).

(** [nodeTag(node)]: the tag stored in the node's header. *)
Definition nodeTag (node : Node) : NodeTag.t :=
  match node with
  | NULL => NodeTag.T_Invalid
  | T_List _ => NodeTag.T_List
  | T_RangeVar _ _ => NodeTag.T_RangeVar
  | T_TableFunc _ => NodeTag.T_TableFunc
  | T_Var _ => NodeTag.T_Var
  | T_Const _ => NodeTag.T_Const
  | T_Param _ => NodeTag.T_Param
  | T_Aggref _ => NodeTag.T_Aggref
  | T_GroupingFunc _ _ => NodeTag.T_GroupingFunc
  | T_WindowFunc _ => NodeTag.T_WindowFunc
  | T_SubscriptingRef _ => NodeTag.T_SubscriptingRef
  | T_FuncExpr _ _ => NodeTag.T_FuncExpr
  | T_NamedArgExpr _ _ => NodeTag.T_NamedArgExpr
  | T_OpExpr _ _ => NodeTag.T_OpExpr
  | T_DistinctExpr _ _ => NodeTag.T_DistinctExpr
  | T_NullIfExpr _ _ => NodeTag.T_NullIfExpr
  | T_ScalarArrayOpExpr _ _ => NodeTag.T_ScalarArrayOpExpr
  | T_BoolExpr _ _ => NodeTag.T_BoolExpr
  | T_SubLink _ _ _ _ => NodeTag.T_SubLink
  | T_FieldSelect _ => NodeTag.T_FieldSelect
  | T_FieldStore _ => NodeTag.T_FieldStore
  | T_RelabelType _ _ => NodeTag.T_RelabelType
  | T_CoerceViaIO _ _ => NodeTag.T_CoerceViaIO
  | T_ArrayCoerceExpr _ _ => NodeTag.T_ArrayCoerceExpr
  | T_ConvertRowtypeExpr _ _ => NodeTag.T_ConvertRowtypeExpr
  | T_CollateExpr _ => NodeTag.T_CollateExpr
  | T_CaseExpr _ _ _ _ => NodeTag.T_CaseExpr
  | T_CaseWhen _ => NodeTag.T_CaseWhen
  | T_ArrayExpr _ => NodeTag.T_ArrayExpr
  | T_RowExpr _ _ _ => NodeTag.T_RowExpr
  | T_RowCompareExpr _ => NodeTag.T_RowCompareExpr
  | T_CoalesceExpr _ _ => NodeTag.T_CoalesceExpr
  | T_MinMaxExpr _ _ => NodeTag.T_MinMaxExpr
  | T_SQLValueFunction _ => NodeTag.T_SQLValueFunction
  | T_XmlExpr _ _ _ _ => NodeTag.T_XmlExpr
  | T_JsonFormat _ => NodeTag.T_JsonFormat
  | T_JsonReturning _ => NodeTag.T_JsonReturning
  | T_JsonValueExpr _ _ _ => NodeTag.T_JsonValueExpr
  | T_JsonConstructorExpr _ _ _ _ _ => NodeTag.T_JsonConstructorExpr
  | T_JsonIsPredicate _ _ => NodeTag.T_JsonIsPredicate
  | T_NullTest _ _ => NodeTag.T_NullTest
  | T_BooleanTest _ _ => NodeTag.T_BooleanTest
  | T_CoerceToDomain _ _ => NodeTag.T_CoerceToDomain
  | T_CoerceToDomainValue _ => NodeTag.T_CoerceToDomainValue
  | T_SetToDefault _ => NodeTag.T_SetToDefault
  | T_CurrentOfExpr => NodeTag.T_CurrentOfExpr
  | T_TargetEntry _ => NodeTag.T_TargetEntry
  | T_JoinExpr _ _ _ _ _ => NodeTag.T_JoinExpr
  | T_IntoClause _ _ _ _ => NodeTag.T_IntoClause
  | T_Alias _ => NodeTag.T_Alias
  | T_Integer => NodeTag.T_Integer
  | T_Float => NodeTag.T_Float
  | T_Boolean => NodeTag.T_Boolean
  | T_String => NodeTag.T_String
  | T_BitString => NodeTag.T_BitString
  | T_InsertStmt _ _ _ _ _ _ => NodeTag.T_InsertStmt
  | T_DeleteStmt _ _ _ _ _ => NodeTag.T_DeleteStmt
  | T_UpdateStmt _ _ _ _ _ _ => NodeTag.T_UpdateStmt
  | T_MergeStmt _ _ _ _ _ => NodeTag.T_MergeStmt
  | T_MergeWhenClause _ _ _ => NodeTag.T_MergeWhenClause
  | T_SelectStmt _ _ _ _ _ _ _ _ _ _ _ _ _ _ _ _ => NodeTag.T_SelectStmt
  | T_PLAssignStmt _ _ => NodeTag.T_PLAssignStmt
  | T_A_Expr _ _ _ _ => NodeTag.T_A_Expr
  | T_ColumnRef _ _ => NodeTag.T_ColumnRef
  | T_ParamRef _ => NodeTag.T_ParamRef
  | T_A_Const _ => NodeTag.T_A_Const
  | T_A_Star => NodeTag.T_A_Star
  | T_FuncCall _ _ _ _ _ _ => NodeTag.T_FuncCall
  | T_A_Indices _ _ => NodeTag.T_A_Indices
  | T_A_Indirection _ _ => NodeTag.T_A_Indirection
  | T_A_ArrayExpr _ _ => NodeTag.T_A_ArrayExpr
  | T_ResTarget _ _ _ => NodeTag.T_ResTarget
  | T_MultiAssignRef _ => NodeTag.T_MultiAssignRef
  | T_TypeCast _ _ _ => NodeTag.T_TypeCast
  | T_CollateClause _ => NodeTag.T_CollateClause
  | T_SortBy _ => NodeTag.T_SortBy
  | T_WindowDef _ _ _ _ _ => NodeTag.T_WindowDef
  | T_RangeSubselect _ _ => NodeTag.T_RangeSubselect
  | T_RangeFunction _ _ _ => NodeTag.T_RangeFunction
  | T_RangeTableSample _ _ _ _ _ => NodeTag.T_RangeTableSample
  | T_RangeTableFunc _ _ _ _ _ => NodeTag.T_RangeTableFunc
  | T_RangeTableFuncCol _ _ => NodeTag.T_RangeTableFuncCol
  | T_TypeName _ => NodeTag.T_TypeName
  | T_ColumnDef _ _ _ _ _ => NodeTag.T_ColumnDef
  | T_Constraint _ => NodeTag.T_Constraint
  | T_FunctionParameter _ => NodeTag.T_FunctionParameter
  | T_IndexElem _ _ _ => NodeTag.T_IndexElem
  | T_XmlSerialize _ _ _ => NodeTag.T_XmlSerialize
  | T_GroupingSet _ _ => NodeTag.T_GroupingSet
  | T_LockingClause _ => NodeTag.T_LockingClause
  | T_WithClause _ _ => NodeTag.T_WithClause
  | T_InferClause _ _ _ => NodeTag.T_InferClause
  | T_OnConflictClause _ _ _ _ => NodeTag.T_OnConflictClause
  | T_CTESearchClause _ => NodeTag.T_CTESearchClause
  | T_CTECycleClause _ => NodeTag.T_CTECycleClause
  | T_CommonTableExpr _ _ _ _ => NodeTag.T_CommonTableExpr
  | T_JsonOutput _ _ => NodeTag.T_JsonOutput
  | T_JsonKeyValue _ _ => NodeTag.T_JsonKeyValue
  | T_JsonObjectConstructor _ _ _ => NodeTag.T_JsonObjectConstructor
  | T_JsonArrayConstructor _ _ _ => NodeTag.T_JsonArrayConstructor
  | T_JsonArrayQueryConstructor _ _ _ => NodeTag.T_JsonArrayQueryConstructor
  | T_JsonAggConstructor _ _ _ _ _ => NodeTag.T_JsonAggConstructor
  | T_JsonObjectAgg _ _ => NodeTag.T_JsonObjectAgg
  | T_JsonArrayAgg _ _ => NodeTag.T_JsonArrayAgg
  | T_PlaceHolderVar _ => NodeTag.T_PlaceHolderVar
  | T_InferenceElem _ => NodeTag.T_InferenceElem
  | T_PartitionElem _ => NodeTag.T_PartitionElem
  | T_PartitionSpec _ => NodeTag.T_PartitionSpec
  | T_PartitionBoundSpec _ => NodeTag.T_PartitionBoundSpec
  | T_PartitionRangeDatum _ => NodeTag.T_PartitionRangeDatum
  | T_Unlisted k => NodeTag.T_Unlisted k
  end.

(** ** Location resolution *)

(** The [Min] macro of [c.h]. *)
Definition Min (x y : Z) : Z := if x <? y then x else y.

(** [leftmostLoc]: take the minimum of two parse location values, but ignore
    unknowns. *)
Definition leftmostLoc (loc1 loc2 : Z) : Z :=
  if loc1 <? 0 then loc2
  else if loc2 <? 0 then loc1
  else Min loc1 loc2.

(** [exprLocation]: the parse location of an expression tree, -1 if it cannot
    be determined.  The cases follow the source's [switch] in order. *)
Fixpoint exprLocation (expr : Node) : Z :=
  match expr with
  | NULL => -1
  | T_RangeVar _ location => location
  | T_TableFunc location => location
  | T_Var location => location
  | T_Const location => location
  | T_Param location => location
  | T_Aggref location => location
  | T_GroupingFunc _ location => location
  | T_WindowFunc location => location
  | T_SubscriptingRef refexpr => exprLocation refexpr
  | T_FuncExpr args location => leftmostLoc location (exprLocation args)
  | T_NamedArgExpr arg location => leftmostLoc location (exprLocation arg)
  | T_OpExpr args location
  | T_DistinctExpr args location
  | T_NullIfExpr args location => leftmostLoc location (exprLocation args)
  | T_ScalarArrayOpExpr args location =>
      leftmostLoc location (exprLocation args)
  | T_BoolExpr args location => leftmostLoc location (exprLocation args)
  | T_SubLink testexpr _ _ location =>
      leftmostLoc (exprLocation testexpr) location
  | T_FieldSelect arg => exprLocation arg
  | T_FieldStore arg => exprLocation arg
  | T_RelabelType arg location => leftmostLoc location (exprLocation arg)
  | T_CoerceViaIO arg location => leftmostLoc location (exprLocation arg)
  | T_ArrayCoerceExpr arg location => leftmostLoc location (exprLocation arg)
  | T_ConvertRowtypeExpr arg location =>
      leftmostLoc location (exprLocation arg)
  | T_CollateExpr arg => exprLocation arg
  | T_CaseExpr _ _ _ location => location
  | T_CaseWhen when => CaseWhen.location when
  | T_ArrayExpr location => location
  | T_RowExpr _ _ location => location
  | T_RowCompareExpr largs => exprLocation largs
  | T_CoalesceExpr _ location => location
  | T_MinMaxExpr _ location => location
  | T_SQLValueFunction location => location
  | T_XmlExpr _ _ args location => leftmostLoc location (exprLocation args)
  | T_JsonFormat location => location
  | T_JsonValueExpr raw_expr _ _ => exprLocation raw_expr
  | T_JsonConstructorExpr _ _ _ _ location => location
  | T_JsonIsPredicate _ location => location
  | T_NullTest arg location => leftmostLoc location (exprLocation arg)
  | T_BooleanTest arg location => leftmostLoc location (exprLocation arg)
  | T_CoerceToDomain arg location => leftmostLoc location (exprLocation arg)
  | T_CoerceToDomainValue location => location
  | T_SetToDefault location => location
  | T_TargetEntry expr => exprLocation expr
  | T_IntoClause rel _ _ _ => exprLocation rel
  | T_List elements =>
      (* report location of first list member that has a location *)
      (fix foreach (lc : list Node) (loc : Z) {struct lc} : Z :=
         match lc with
         | [] => loc
         | member :: lc' =>
             let loc := exprLocation member in
             if loc >=? 0 then loc else foreach lc' loc
         end) elements (-1)
  | T_A_Expr _ lexpr _ location =>
      (* the right operand is assumed not to be left of the operator *)
      leftmostLoc location (exprLocation lexpr)
  | T_ColumnRef _ location => location
  | T_ParamRef location => location
  | T_A_Const location => location
  | T_FuncCall _ args _ _ _ location =>
      leftmostLoc location (exprLocation args)
  | T_A_ArrayExpr _ location => location
  | T_ResTarget _ _ location => location
  | T_MultiAssignRef source => exprLocation source
  | T_TypeCast arg typeName location =>
      let loc := exprLocation arg in
      let loc := leftmostLoc loc (TypeName.location typeName) in
      leftmostLoc loc location
  | T_CollateClause arg => exprLocation arg
  | T_SortBy node => exprLocation node
  | T_WindowDef _ _ _ _ location => location
  | T_RangeTableSample _ _ _ _ location => location
  | T_TypeName tn => TypeName.location tn
  | T_ColumnDef _ _ _ _ location => location
  | T_Constraint location => location
  | T_FunctionParameter argType => exprLocation argType
  | T_XmlSerialize _ _ location => location
  | T_GroupingSet _ location => location
  | T_WithClause _ location => location
  | T_InferClause _ _ location => location
  | T_OnConflictClause _ _ _ location => location
  | T_CTESearchClause location => location
  | T_CTECycleClause location => location
  | T_CommonTableExpr _ _ _ location => location
  | T_JsonKeyValue key _ => exprLocation key
  | T_JsonObjectConstructor _ _ location => location
  | T_JsonArrayConstructor _ _ location => location
  | T_JsonArrayQueryConstructor _ _ location => location
  | T_JsonAggConstructor _ _ _ _ location => location
  | T_JsonObjectAgg constructor _ => exprLocation constructor
  | T_JsonArrayAgg constructor _ => exprLocation constructor
  | T_PlaceHolderVar phexpr => exprLocation phexpr
  | T_InferenceElem expr => exprLocation expr
  | T_PartitionElem location => location
  | T_PartitionSpec location => location
  | T_PartitionBoundSpec location => location
  | T_PartitionRangeDatum location => location
  | _ => -1 (* for any other node type it's just unknown... *)
  end.

(** ** Effects: the callback, the diagnostic channel, the stack guard *)

(** Severity levels of the engine's diagnostic channel ([utils/elog.h]). *)
Inductive ElogLevel : Set :=
| DEBUG | LOG | INFO | NOTICE | WARNING | ERROR | FATAL | PANIC.

(** What the walker and its callback can change: the object behind the
    callback's [void *context], and the diagnostic channel. *)
Record World (Ctx : Type) : Type := mkWorld
  { context : Ctx;
    elog_output : list (ElogLevel * string) }.

Arguments mkWorld {Ctx}.
Arguments context {Ctx}.
Arguments elog_output {Ctx}.

(** A call either returns to its caller, or control leaves it at a report of
    severity [ERROR] or above (a non-local exit that, without a handler
    installed by the host, ends the process). *)
Inductive Outcome (Ctx A : Type) : Type :=
| Returns (a : A) (w : World Ctx)
| Raises (elevel : ElogLevel) (msg : string) (w : World Ctx).

Arguments Returns {Ctx A}.
Arguments Raises {Ctx A}.

Definition M (Ctx A : Type) : Type := World Ctx -> Outcome Ctx A.

Definition ret {Ctx A : Type} (a : A) : M Ctx A := fun w => Returns a w.

Definition bind {Ctx A B : Type} (c : M Ctx A) (k : A -> M Ctx B) : M Ctx B :=
  fun w =>
    match c w with
    | Returns a w' => k a w'
    | Raises elevel msg w' => Raises elevel msg w'
    end.

Declare Scope walker_scope.
Delimit Scope walker_scope with walker.

Notation "x <- c ;; k" := (bind c (fun x => k))
  (at level 61, c at next level, right associativity) : walker_scope.
Notation "c ;; k" := (bind c (fun _ => k))
  (at level 61, right associativity) : walker_scope.
(** [if (c) return true; k] *)
Notation "'IF' c 'RETURN_TRUE' ;; k" :=
  (bind c (fun stop : bool => if stop then ret true else k))
  (at level 61, c at next level, right associativity) : walker_scope.

Local Open Scope walker_scope.

(** [tree_walker_callback]: a C function taking the node and the [void *]
    context and returning [bool]; the context lives in the [World]. *)
Definition tree_walker_callback (Ctx : Type) : Type := Node -> M Ctx bool.

(** What the vendored engine fixes and this file only uses: the numbering of
    [enum NodeTag] and the test behind the stack guard. *)
Class Engine (Ctx : Type) : Type :=
  { NodeTag_value : NodeTag.t -> Z;
    stack_is_too_deep : World Ctx -> bool }.

Definition elevel_returns (elevel : ElogLevel) : bool :=
  match elevel with
  | ERROR | FATAL | PANIC => false
  | _ => true
  end.

(** Modelled from the spec: [elog] is the engine's diagnostic channel, which
    is not part of the sources.  A report below [ERROR] (the walker's patched
    call site uses [NOTICE]) is logged and execution continues; at the
    engine's default severity for that call site control does not come
    back. *)
Definition elog {Ctx : Type} (elevel : ElogLevel) (msg : string) : M Ctx unit :=
  fun w =>
    if elevel_returns elevel
    then Returns tt (mkWorld (context w) (elog_output w ++ [(elevel, msg)]))
    else Raises elevel msg w.

(** Modelled from the spec: [check_stack_depth] is the engine's recursion
    guard, which is not part of the sources.  It fails with a stack-depth
    error if nesting would exceed the safe call budget, and does nothing
    otherwise. *)
Definition check_stack_depth {Ctx : Type} {E : Engine Ctx} : M Ctx unit :=
  fun w =>
    if stack_is_too_deep w
    then Raises ERROR "stack depth limit exceeded"%string w
    else Returns tt w.

(** [printf]'s [%d] conversion. *)
Definition format_d (i : Z) : string := NilZero.string_of_int (Z.to_int i).

(** [foreach(cell, list) { if (body) return true; }]: the loop ends the
    enclosing function with [true] at the first member whose body says so;
    it yields [false] when it runs to the end of the list. *)
Fixpoint foreach {Ctx A : Type} (l : list A) (body : A -> M Ctx bool)
  : M Ctx bool :=
  match l with
  | [] => ret false
  | cell :: l' => IF body cell RETURN_TRUE ;; foreach l' body
  end.

(** ** The raw parse-tree walker *)

(** [node == NULL] *)
Definition is_NULL (node : Node) : bool :=
  match node with
  | NULL => true
  | _ => false
  end.

(** [raw_expression_tree_walker_impl]: the callback has already visited
    [node]; recurse into its sub-nodes.  [WALK n] is the source's macro
    [walker(n, context)]; a [switch] arm that ends in [break]
    reaches the final [return false].  The arms follow the source in
    order; the [default] arm is never entered with [NULL], which the test
    before the [switch] has sent back. *)
Definition raw_expression_tree_walker_impl {Ctx : Type} {E : Engine Ctx}
  (node : Node) (walker : tree_walker_callback Ctx) : M Ctx bool :=
  let WALK (n : Node) : M Ctx bool := walker n in
  let break : M Ctx bool := ret false in
  if is_NULL node then ret false
  else
    (* Guard against stack overflow due to overly complex expressions *)
    check_stack_depth ;;
    match node with
    | T_JsonFormat _
    | T_SetToDefault _
    | T_CurrentOfExpr
    | T_SQLValueFunction _
    | T_Integer
    | T_Float
    | T_Boolean
    | T_String
    | T_BitString
    | T_ParamRef _
    | T_A_Const _
    | T_A_Star =>
        (* primitive node types with no subnodes *)
        break
    | T_Alias _ =>
        (* we assume the colnames list isn't interesting *)
        break
    | T_RangeVar alias _ => WALK alias
    | T_GroupingFunc args _ => WALK args
    | T_SubLink testexpr _ subselect _ =>
        IF WALK testexpr RETURN_TRUE ;;
        (* we assume the operName is not interesting *)
        IF WALK subselect RETURN_TRUE ;;
        break
    | T_CaseExpr arg args defresult _ =>
        IF WALK arg RETURN_TRUE ;;
        (* we assume walker doesn't care about CaseWhens, either *)
        IF foreach args (fun when =>
             IF WALK (CaseWhen.expr when) RETURN_TRUE ;;
             IF WALK (CaseWhen.result when) RETURN_TRUE ;;
             ret false) RETURN_TRUE ;;
        IF WALK defresult RETURN_TRUE ;;
        break
    | T_RowExpr args _ _ =>
        (* Assume colnames isn't interesting *)
        WALK args
    | T_CoalesceExpr args _ => WALK args
    | T_MinMaxExpr args _ => WALK args
    | T_XmlExpr named_args _ args _ =>
        IF WALK named_args RETURN_TRUE ;;
        (* we assume walker doesn't care about arg_names *)
        IF WALK args RETURN_TRUE ;;
        break
    | T_JsonReturning format => WALK format
    | T_JsonValueExpr raw_expr formatted_expr format =>
        IF WALK raw_expr RETURN_TRUE ;;
        IF WALK formatted_expr RETURN_TRUE ;;
        IF WALK format RETURN_TRUE ;;
        break
    | T_JsonConstructorExpr args func coercion returning _ =>
        IF WALK args RETURN_TRUE ;;
        IF WALK func RETURN_TRUE ;;
        IF WALK coercion RETURN_TRUE ;;
        IF WALK returning RETURN_TRUE ;;
        break
    | T_JsonIsPredicate expr _ => WALK expr
    | T_NullTest arg _ => WALK arg
    | T_BooleanTest arg _ => WALK arg
    | T_JoinExpr larg rarg _ quals alias =>
        IF WALK larg RETURN_TRUE ;;
        IF WALK rarg RETURN_TRUE ;;
        IF WALK quals RETURN_TRUE ;;
        IF WALK alias RETURN_TRUE ;;
        (* using list is deemed uninteresting *)
        break
    | T_IntoClause rel _ _ viewQuery =>
        IF WALK rel RETURN_TRUE ;;
        (* colNames, options are deemed uninteresting *)
        (* viewQuery should be null in raw parsetree, but check it *)
        IF WALK viewQuery RETURN_TRUE ;;
        break
    | T_List elements =>
        IF foreach elements (fun member => WALK member) RETURN_TRUE ;;
        break
    | T_InsertStmt relation cols selectStmt onConflictClause returningList
        withClause =>
        IF WALK relation RETURN_TRUE ;;
        IF WALK cols RETURN_TRUE ;;
        IF WALK selectStmt RETURN_TRUE ;;
        IF WALK onConflictClause RETURN_TRUE ;;
        IF WALK returningList RETURN_TRUE ;;
        IF WALK withClause RETURN_TRUE ;;
        break
    | T_DeleteStmt relation usingClause whereClause returningList
        withClause =>
        IF WALK relation RETURN_TRUE ;;
        IF WALK usingClause RETURN_TRUE ;;
        IF WALK whereClause RETURN_TRUE ;;
        IF WALK returningList RETURN_TRUE ;;
        IF WALK withClause RETURN_TRUE ;;
        break
    | T_UpdateStmt relation targetList whereClause fromClause returningList
        withClause =>
        IF WALK relation RETURN_TRUE ;;
        IF WALK targetList RETURN_TRUE ;;
        IF WALK whereClause RETURN_TRUE ;;
        IF WALK fromClause RETURN_TRUE ;;
        IF WALK returningList RETURN_TRUE ;;
        IF WALK withClause RETURN_TRUE ;;
        break
    | T_MergeStmt relation sourceRelation joinCondition mergeWhenClauses
        withClause =>
        IF WALK relation RETURN_TRUE ;;
        IF WALK sourceRelation RETURN_TRUE ;;
        IF WALK joinCondition RETURN_TRUE ;;
        IF WALK mergeWhenClauses RETURN_TRUE ;;
        IF WALK withClause RETURN_TRUE ;;
        break
    | T_MergeWhenClause condition targetList values =>
        IF WALK condition RETURN_TRUE ;;
        IF WALK targetList RETURN_TRUE ;;
        IF WALK values RETURN_TRUE ;;
        break
    | T_SelectStmt distinctClause intoClause targetList fromClause
        whereClause groupClause havingClause windowClause valuesLists
        sortClause limitOffset limitCount lockingClause withClause larg
        rarg =>
        IF WALK distinctClause RETURN_TRUE ;;
        IF WALK intoClause RETURN_TRUE ;;
        IF WALK targetList RETURN_TRUE ;;
        IF WALK fromClause RETURN_TRUE ;;
        IF WALK whereClause RETURN_TRUE ;;
        IF WALK groupClause RETURN_TRUE ;;
        IF WALK havingClause RETURN_TRUE ;;
        IF WALK windowClause RETURN_TRUE ;;
        IF WALK valuesLists RETURN_TRUE ;;
        IF WALK sortClause RETURN_TRUE ;;
        IF WALK limitOffset RETURN_TRUE ;;
        IF WALK limitCount RETURN_TRUE ;;
        IF WALK lockingClause RETURN_TRUE ;;
        IF WALK withClause RETURN_TRUE ;;
        IF WALK larg RETURN_TRUE ;;
        IF WALK rarg RETURN_TRUE ;;
        break
    | T_PLAssignStmt indirection val =>
        IF WALK indirection RETURN_TRUE ;;
        IF WALK val RETURN_TRUE ;;
        break
    | T_A_Expr _ lexpr rexpr _ =>
        IF WALK lexpr RETURN_TRUE ;;
        IF WALK rexpr RETURN_TRUE ;;
        (* operator name is deemed uninteresting *)
        break
    | T_BoolExpr args _ =>
        IF WALK args RETURN_TRUE ;;
        break
    | T_ColumnRef _ _ =>
        (* we assume the fields contain nothing interesting *)
        break
    | T_FuncCall _ args agg_order agg_filter over _ =>
        IF WALK args RETURN_TRUE ;;
        IF WALK agg_order RETURN_TRUE ;;
        IF WALK agg_filter RETURN_TRUE ;;
        IF WALK over RETURN_TRUE ;;
        (* function name is deemed uninteresting *)
        break
    | T_NamedArgExpr arg _ => WALK arg
    | T_A_Indices lidx uidx =>
        IF WALK lidx RETURN_TRUE ;;
        IF WALK uidx RETURN_TRUE ;;
        break
    | T_A_Indirection arg indirection =>
        IF WALK arg RETURN_TRUE ;;
        IF WALK indirection RETURN_TRUE ;;
        break
    | T_A_ArrayExpr elements _ => WALK elements
    | T_ResTarget indirection val _ =>
        IF WALK indirection RETURN_TRUE ;;
        IF WALK val RETURN_TRUE ;;
        break
    | T_MultiAssignRef source => WALK source
    | T_TypeCast arg typeName _ =>
        IF WALK arg RETURN_TRUE ;;
        IF WALK (T_TypeName typeName) RETURN_TRUE ;;
        break
    | T_CollateClause arg => WALK arg
    | T_SortBy node => WALK node
    | T_WindowDef partitionClause orderClause startOffset endOffset _ =>
        IF WALK partitionClause RETURN_TRUE ;;
        IF WALK orderClause RETURN_TRUE ;;
        IF WALK startOffset RETURN_TRUE ;;
        IF WALK endOffset RETURN_TRUE ;;
        break
    | T_RangeSubselect subquery alias =>
        IF WALK subquery RETURN_TRUE ;;
        IF WALK alias RETURN_TRUE ;;
        break
    | T_RangeFunction functions alias coldeflist =>
        IF WALK functions RETURN_TRUE ;;
        IF WALK alias RETURN_TRUE ;;
        IF WALK coldeflist RETURN_TRUE ;;
        break
    | T_RangeTableSample relation _ args repeatable _ =>
        IF WALK relation RETURN_TRUE ;;
        (* method name is deemed uninteresting *)
        IF WALK args RETURN_TRUE ;;
        IF WALK repeatable RETURN_TRUE ;;
        break
    | T_RangeTableFunc docexpr rowexpr namespaces columns alias =>
        IF WALK docexpr RETURN_TRUE ;;
        IF WALK rowexpr RETURN_TRUE ;;
        IF WALK namespaces RETURN_TRUE ;;
        IF WALK columns RETURN_TRUE ;;
        IF WALK alias RETURN_TRUE ;;
        break
    | T_RangeTableFuncCol colexpr coldefexpr =>
        IF WALK colexpr RETURN_TRUE ;;
        IF WALK coldefexpr RETURN_TRUE ;;
        break
    | T_TypeName tn =>
        IF WALK (TypeName.typmods tn) RETURN_TRUE ;;
        IF WALK (TypeName.arrayBounds tn) RETURN_TRUE ;;
        (* type name itself is deemed uninteresting *)
        break
    | T_ColumnDef typeName raw_default collClause _ _ =>
        IF WALK typeName RETURN_TRUE ;;
        IF WALK raw_default RETURN_TRUE ;;
        IF WALK collClause RETURN_TRUE ;;
        (* for now, constraints are ignored *)
        break
    | T_IndexElem expr _ _ =>
        IF WALK expr RETURN_TRUE ;;
        (* collation and opclass names are deemed uninteresting *)
        break
    | T_GroupingSet content _ => WALK content
    | T_LockingClause lockedRels => WALK lockedRels
    | T_XmlSerialize expr typeName _ =>
        IF WALK expr RETURN_TRUE ;;
        IF WALK typeName RETURN_TRUE ;;
        break
    | T_WithClause ctes _ => WALK ctes
    | T_InferClause indexElems whereClause _ =>
        IF WALK indexElems RETURN_TRUE ;;
        IF WALK whereClause RETURN_TRUE ;;
        break
    | T_OnConflictClause infer targetList whereClause _ =>
        IF WALK infer RETURN_TRUE ;;
        IF WALK targetList RETURN_TRUE ;;
        IF WALK whereClause RETURN_TRUE ;;
        break
    | T_CommonTableExpr ctequery _ _ _ =>
        (* search_clause and cycle_clause are not interesting here *)
        WALK ctequery
    | T_JsonOutput typeName returning =>
        IF WALK typeName RETURN_TRUE ;;
        IF WALK returning RETURN_TRUE ;;
        break
    | T_JsonKeyValue key value =>
        IF WALK key RETURN_TRUE ;;
        IF WALK value RETURN_TRUE ;;
        break
    | T_JsonObjectConstructor output exprs _ =>
        IF WALK output RETURN_TRUE ;;
        IF WALK exprs RETURN_TRUE ;;
        break
    | T_JsonArrayConstructor output exprs _ =>
        IF WALK output RETURN_TRUE ;;
        IF WALK exprs RETURN_TRUE ;;
        break
    | T_JsonAggConstructor output agg_order agg_filter over _ =>
        IF WALK output RETURN_TRUE ;;
        IF WALK agg_order RETURN_TRUE ;;
        IF WALK agg_filter RETURN_TRUE ;;
        IF WALK over RETURN_TRUE ;;
        break
    | T_JsonObjectAgg constructor arg =>
        IF WALK constructor RETURN_TRUE ;;
        IF WALK arg RETURN_TRUE ;;
        break
    | T_JsonArrayAgg constructor arg =>
        IF WALK constructor RETURN_TRUE ;;
        IF WALK arg RETURN_TRUE ;;
        break
    | T_JsonArrayQueryConstructor output query _ =>
        IF WALK output RETURN_TRUE ;;
        IF WALK query RETURN_TRUE ;;
        break
    | _ =>
        (* NOTE: this does not handle DDL statements; unmodified it would
           lead to exit(1) being called; modified to change log level. *)
        elog NOTICE
          ("unrecognized node type: "
           ++ format_d (NodeTag_value (nodeTag node)))%string ;;
        break
    end.

(** ** Vocabulary of the specification *)

(** The [location] field of a node, for the kinds where [exprLocation] reads
    one.  The engine's structs of a few more kinds ([SortBy],
    [CollateClause], [CollateExpr], [RangeTableFunc], [RangeTableFuncCol],
    [PLAssignStmt]) carry a location too; neither function ever reads it,
    the constructors of [Node] leave it out, and it has no entry here. *)
Definition node_location (node : Node) : option Z :=
  match node with
  | T_RangeVar _ location => Some location
  | T_TableFunc location => Some location
  | T_Var location => Some location
  | T_Const location => Some location
  | T_Param location => Some location
  | T_Aggref location => Some location
  | T_GroupingFunc _ location => Some location
  | T_WindowFunc location => Some location
  | T_FuncExpr _ location => Some location
  | T_NamedArgExpr _ location => Some location
  | T_OpExpr _ location => Some location
  | T_DistinctExpr _ location => Some location
  | T_NullIfExpr _ location => Some location
  | T_ScalarArrayOpExpr _ location => Some location
  | T_BoolExpr _ location => Some location
  | T_SubLink _ _ _ location => Some location
  | T_RelabelType _ location => Some location
  | T_CoerceViaIO _ location => Some location
  | T_ArrayCoerceExpr _ location => Some location
  | T_ConvertRowtypeExpr _ location => Some location
  | T_CaseExpr _ _ _ location => Some location
  | T_CaseWhen when => Some (CaseWhen.location when)
  | T_ArrayExpr location => Some location
  | T_RowExpr _ _ location => Some location
  | T_CoalesceExpr _ location => Some location
  | T_MinMaxExpr _ location => Some location
  | T_SQLValueFunction location => Some location
  | T_XmlExpr _ _ _ location => Some location
  | T_JsonFormat location => Some location
  | T_JsonConstructorExpr _ _ _ _ location => Some location
  | T_JsonIsPredicate _ location => Some location
  | T_NullTest _ location => Some location
  | T_BooleanTest _ location => Some location
  | T_CoerceToDomain _ location => Some location
  | T_CoerceToDomainValue location => Some location
  | T_SetToDefault location => Some location
  | T_A_Expr _ _ _ location => Some location
  | T_ColumnRef _ location => Some location
  | T_ParamRef location => Some location
  | T_A_Const location => Some location
  | T_FuncCall _ _ _ _ _ location => Some location
  | T_A_ArrayExpr _ location => Some location
  | T_ResTarget _ _ location => Some location
  | T_TypeCast _ _ location => Some location
  | T_WindowDef _ _ _ _ location => Some location
  | T_RangeTableSample _ _ _ _ location => Some location
  | T_TypeName tn => Some (TypeName.location tn)
  | T_ColumnDef _ _ _ _ location => Some location
  | T_Constraint location => Some location
  | T_XmlSerialize _ _ location => Some location
  | T_GroupingSet _ location => Some location
  | T_WithClause _ location => Some location
  | T_InferClause _ _ location => Some location
  | T_OnConflictClause _ _ _ location => Some location
  | T_CTESearchClause location => Some location
  | T_CTECycleClause location => Some location
  | T_CommonTableExpr _ _ _ location => Some location
  | T_JsonObjectConstructor _ _ location => Some location
  | T_JsonArrayConstructor _ _ location => Some location
  | T_JsonArrayQueryConstructor _ _ location => Some location
  | T_JsonAggConstructor _ _ _ _ location => Some location
  | T_PartitionElem location => Some location
  | T_PartitionSpec location => Some location
  | T_PartitionBoundSpec location => Some location
  | T_PartitionRangeDatum location => Some location
  | _ => None
  end.

(** The kinds the specification groups as "storing an explicit location
    field": range-variable refs, table functions, vars, constants,
    parameters, aggregate/window/grouping calls, case/case-when,
    array/row/coalesce/min-max/SQL-value constructs, the JSON constructor
    family, null/boolean tests, domain coercions, default markers, type
    names, column definitions, constraints, window/table-sample definitions,
    partition elements/specs/bounds/range-datums, common-table-expressions,
    with-clauses, on-conflict/infer clauses, CTE search/cycle clauses,
    grouping sets, a-star/a-expr, function parameters, XML-serialize
    forms. *)
Definition explicit_location_group (node : Node) : bool :=
  match node with
  | T_RangeVar _ _ | T_TableFunc _ | T_Var _
  | T_Const _ | T_A_Const _
  | T_Param _ | T_ParamRef _
  | T_Aggref _ | T_WindowFunc _ | T_GroupingFunc _ _
  | T_CaseExpr _ _ _ _ | T_CaseWhen _
  | T_ArrayExpr _ | T_A_ArrayExpr _ _ | T_RowExpr _ _ _
  | T_CoalesceExpr _ _ | T_MinMaxExpr _ _ | T_SQLValueFunction _
  | T_JsonConstructorExpr _ _ _ _ _ | T_JsonObjectConstructor _ _ _
  | T_JsonArrayConstructor _ _ _ | T_JsonArrayQueryConstructor _ _ _
  | T_JsonAggConstructor _ _ _ _ _
  | T_NullTest _ _ | T_BooleanTest _ _
  | T_CoerceToDomain _ _ | T_CoerceToDomainValue _
  | T_SetToDefault _
  | T_TypeName _ | T_ColumnDef _ _ _ _ _ | T_Constraint _
  | T_WindowDef _ _ _ _ _ | T_RangeTableSample _ _ _ _ _
  | T_PartitionElem _ | T_PartitionSpec _ | T_PartitionBoundSpec _
  | T_PartitionRangeDatum _
  | T_CommonTableExpr _ _ _ _ | T_WithClause _ _
  | T_OnConflictClause _ _ _ _ | T_InferClause _ _ _
  | T_CTESearchClause _ | T_CTECycleClause _
  | T_GroupingSet _ _
  | T_A_Star | T_A_Expr _ _ _ _
  | T_FunctionParameter _
  | T_XmlSerialize _ _ _ => true
  | _ => false
  end.

(** The kinds the walker's [switch] has an arm for. *)
Definition walker_recognizes (node : Node) : bool :=
  match node with
  | T_JsonFormat _ | T_SetToDefault _ | T_CurrentOfExpr
  | T_SQLValueFunction _ | T_Integer | T_Float | T_Boolean | T_String
  | T_BitString | T_ParamRef _ | T_A_Const _ | T_A_Star | T_Alias _
  | T_RangeVar _ _ | T_GroupingFunc _ _ | T_SubLink _ _ _ _
  | T_CaseExpr _ _ _ _ | T_RowExpr _ _ _ | T_CoalesceExpr _ _
  | T_MinMaxExpr _ _ | T_XmlExpr _ _ _ _ | T_JsonReturning _
  | T_JsonValueExpr _ _ _ | T_JsonConstructorExpr _ _ _ _ _
  | T_JsonIsPredicate _ _ | T_NullTest _ _ | T_BooleanTest _ _
  | T_JoinExpr _ _ _ _ _ | T_IntoClause _ _ _ _ | T_List _
  | T_InsertStmt _ _ _ _ _ _ | T_DeleteStmt _ _ _ _ _
  | T_UpdateStmt _ _ _ _ _ _ | T_MergeStmt _ _ _ _ _
  | T_MergeWhenClause _ _ _
  | T_SelectStmt _ _ _ _ _ _ _ _ _ _ _ _ _ _ _ _
  | T_PLAssignStmt _ _ | T_A_Expr _ _ _ _ | T_BoolExpr _ _
  | T_ColumnRef _ _ | T_FuncCall _ _ _ _ _ _ | T_NamedArgExpr _ _
  | T_A_Indices _ _ | T_A_Indirection _ _ | T_A_ArrayExpr _ _
  | T_ResTarget _ _ _ | T_MultiAssignRef _ | T_TypeCast _ _ _
  | T_CollateClause _ | T_SortBy _ | T_WindowDef _ _ _ _ _
  | T_RangeSubselect _ _ | T_RangeFunction _ _ _
  | T_RangeTableSample _ _ _ _ _ | T_RangeTableFunc _ _ _ _ _
  | T_RangeTableFuncCol _ _ | T_TypeName _ | T_ColumnDef _ _ _ _ _
  | T_IndexElem _ _ _ | T_GroupingSet _ _ | T_LockingClause _
  | T_XmlSerialize _ _ _ | T_WithClause _ _ | T_InferClause _ _ _
  | T_OnConflictClause _ _ _ _ | T_CommonTableExpr _ _ _ _
  | T_JsonOutput _ _ | T_JsonKeyValue _ _
  | T_JsonObjectConstructor _ _ _ | T_JsonArrayConstructor _ _ _
  | T_JsonAggConstructor _ _ _ _ _ | T_JsonObjectAgg _ _
  | T_JsonArrayAgg _ _ | T_JsonArrayQueryConstructor _ _ _ => true
  | _ => false
  end.

(** The walker's per-kind field order as a table: the pointers handed to the
    callback for a node of each kind, in order ([NULL] fields included; the
    callback is called on them too).  The WHEN arms of a CASE are not handed
    over themselves, their condition and result are. *)
Definition walk_fields (node : Node) : list Node :=
  match node with
  | T_RangeVar alias _ => [alias]
  | T_GroupingFunc args _ => [args]
  | T_SubLink testexpr _ subselect _ => [testexpr; subselect]
  | T_CaseExpr arg args defresult _ =>
      arg :: flat_map (fun when =>
                         [CaseWhen.expr when; CaseWhen.result when]) args
          ++ [defresult]
  | T_RowExpr args _ _ => [args]
  | T_CoalesceExpr args _ => [args]
  | T_MinMaxExpr args _ => [args]
  | T_XmlExpr named_args _ args _ => [named_args; args]
  | T_JsonReturning format => [format]
  | T_JsonValueExpr raw_expr formatted_expr format =>
      [raw_expr; formatted_expr; format]
  | T_JsonConstructorExpr args func coercion returning _ =>
      [args; func; coercion; returning]
  | T_JsonIsPredicate expr _ => [expr]
  | T_NullTest arg _ => [arg]
  | T_BooleanTest arg _ => [arg]
  | T_JoinExpr larg rarg _ quals alias => [larg; rarg; quals; alias]
  | T_IntoClause rel _ _ viewQuery => [rel; viewQuery]
  | T_List elements => elements
  | T_InsertStmt relation cols selectStmt onConflictClause returningList
      withClause =>
      [relation; cols; selectStmt; onConflictClause; returningList;
       withClause]
  | T_DeleteStmt relation usingClause whereClause returningList withClause =>
      [relation; usingClause; whereClause; returningList; withClause]
  | T_UpdateStmt relation targetList whereClause fromClause returningList
      withClause =>
      [relation; targetList; whereClause; fromClause; returningList;
       withClause]
  | T_MergeStmt relation sourceRelation joinCondition mergeWhenClauses
      withClause =>
      [relation; sourceRelation; joinCondition; mergeWhenClauses; withClause]
  | T_MergeWhenClause condition targetList values =>
      [condition; targetList; values]
  | T_SelectStmt distinctClause intoClause targetList fromClause whereClause
      groupClause havingClause windowClause valuesLists sortClause
      limitOffset limitCount lockingClause withClause larg rarg =>
      [distinctClause; intoClause; targetList; fromClause; whereClause;
       groupClause; havingClause; windowClause; valuesLists; sortClause;
       limitOffset; limitCount; lockingClause; withClause; larg; rarg]
  | T_PLAssignStmt indirection val => [indirection; val]
  | T_A_Expr _ lexpr rexpr _ => [lexpr; rexpr]
  | T_BoolExpr args _ => [args]
  | T_FuncCall _ args agg_order agg_filter over _ =>
      [args; agg_order; agg_filter; over]
  | T_NamedArgExpr arg _ => [arg]
  | T_A_Indices lidx uidx => [lidx; uidx]
  | T_A_Indirection arg indirection => [arg; indirection]
  | T_A_ArrayExpr elements _ => [elements]
  | T_ResTarget indirection val _ => [indirection; val]
  | T_MultiAssignRef source => [source]
  | T_TypeCast arg typeName _ => [arg; T_TypeName typeName]
  | T_CollateClause arg => [arg]
  | T_SortBy node => [node]
  | T_WindowDef partitionClause orderClause startOffset endOffset _ =>
      [partitionClause; orderClause; startOffset; endOffset]
  | T_RangeSubselect subquery alias => [subquery; alias]
  | T_RangeFunction functions alias coldeflist =>
      [functions; alias; coldeflist]
  | T_RangeTableSample relation _ args repeatable _ =>
      [relation; args; repeatable]
  | T_RangeTableFunc docexpr rowexpr namespaces columns alias =>
      [docexpr; rowexpr; namespaces; columns; alias]
  | T_RangeTableFuncCol colexpr coldefexpr => [colexpr; coldefexpr]
  | T_TypeName tn => [TypeName.typmods tn; TypeName.arrayBounds tn]
  | T_ColumnDef typeName raw_default collClause _ _ =>
      [typeName; raw_default; collClause]
  | T_IndexElem expr _ _ => [expr]
  | T_GroupingSet content _ => [content]
  | T_LockingClause lockedRels => [lockedRels]
  | T_XmlSerialize expr typeName _ => [expr; typeName]
  | T_WithClause ctes _ => [ctes]
  | T_InferClause indexElems whereClause _ => [indexElems; whereClause]
  | T_OnConflictClause infer targetList whereClause _ =>
      [infer; targetList; whereClause]
  | T_CommonTableExpr ctequery _ _ _ => [ctequery]
  | T_JsonOutput typeName returning => [typeName; returning]
  | T_JsonKeyValue key value => [key; value]
  | T_JsonObjectConstructor output exprs _ => [output; exprs]
  | T_JsonArrayConstructor output exprs _ => [output; exprs]
  | T_JsonAggConstructor output agg_order agg_filter over _ =>
      [output; agg_order; agg_filter; over]
  | T_JsonObjectAgg constructor arg => [constructor; arg]
  | T_JsonArrayAgg constructor arg => [constructor; arg]
  | T_JsonArrayQueryConstructor output query _ => [output; query]
  | _ => []
  end.

(** Every node-valued field of a node, in declaration order, whether the
    walker looks at it or not. *)
Definition subnodes (node : Node) : list Node :=
  match node with
  | NULL => []
  | T_List elements => elements
  | T_RangeVar alias _ => [alias]
  | T_TableFunc _ => []
  | T_Var _ => []
  | T_Const _ => []
  | T_Param _ => []
  | T_Aggref _ => []
  | T_GroupingFunc args _ => [args]
  | T_WindowFunc _ => []
  | T_SubscriptingRef refexpr => [refexpr]
  | T_FuncExpr args _ => [args]
  | T_NamedArgExpr arg _ => [arg]
  | T_OpExpr args _ => [args]
  | T_DistinctExpr args _ => [args]
  | T_NullIfExpr args _ => [args]
  | T_ScalarArrayOpExpr args _ => [args]
  | T_BoolExpr args _ => [args]
  | T_SubLink testexpr operName subselect _ => [testexpr; operName; subselect]
  | T_FieldSelect arg => [arg]
  | T_FieldStore arg => [arg]
  | T_RelabelType arg _ => [arg]
  | T_CoerceViaIO arg _ => [arg]
  | T_ArrayCoerceExpr arg _ => [arg]
  | T_ConvertRowtypeExpr arg _ => [arg]
  | T_CollateExpr arg => [arg]
  | T_CaseExpr arg args defresult _ =>
      [arg] ++ map T_CaseWhen args ++ [defresult]
  | T_CaseWhen when => [CaseWhen.expr when; CaseWhen.result when]
  | T_ArrayExpr _ => []
  | T_RowExpr args colnames _ => [args; colnames]
  | T_RowCompareExpr largs => [largs]
  | T_CoalesceExpr args _ => [args]
  | T_MinMaxExpr args _ => [args]
  | T_SQLValueFunction _ => []
  | T_XmlExpr named_args arg_names args _ => [named_args; arg_names; args]
  | T_JsonFormat _ => []
  | T_JsonReturning format => [format]
  | T_JsonValueExpr raw_expr formatted_expr format =>
      [raw_expr; formatted_expr; format]
  | T_JsonConstructorExpr args func coercion returning _ =>
      [args; func; coercion; returning]
  | T_JsonIsPredicate expr _ => [expr]
  | T_NullTest arg _ => [arg]
  | T_BooleanTest arg _ => [arg]
  | T_CoerceToDomain arg _ => [arg]
  | T_CoerceToDomainValue _ => []
  | T_SetToDefault _ => []
  | T_CurrentOfExpr => []
  | T_TargetEntry expr => [expr]
  | T_JoinExpr larg rarg usingClause quals alias =>
      [larg; rarg; usingClause; quals; alias]
  | T_IntoClause rel colNames options viewQuery =>
      [rel; colNames; options; viewQuery]
  | T_Alias colnames => [colnames]
  | T_Integer => []
  | T_Float => []
  | T_Boolean => []
  | T_String => []
  | T_BitString => []
  | T_InsertStmt relation cols selectStmt onConflictClause returningList
      withClause =>
      [relation; cols; selectStmt; onConflictClause; returningList;
          withClause]
  | T_DeleteStmt relation usingClause whereClause returningList withClause =>
      [relation; usingClause; whereClause; returningList; withClause]
  | T_UpdateStmt relation targetList whereClause fromClause returningList
      withClause =>
      [relation; targetList; whereClause; fromClause; returningList;
          withClause]
  | T_MergeStmt relation sourceRelation joinCondition mergeWhenClauses
      withClause =>
      [relation; sourceRelation; joinCondition; mergeWhenClauses; withClause]
  | T_MergeWhenClause condition targetList values =>
      [condition; targetList; values]
  | T_SelectStmt distinctClause intoClause targetList fromClause whereClause
      groupClause havingClause windowClause valuesLists sortClause
      limitOffset limitCount lockingClause withClause larg rarg =>
      [distinctClause; intoClause; targetList; fromClause; whereClause;
          groupClause; havingClause; windowClause; valuesLists; sortClause;
          limitOffset; limitCount; lockingClause; withClause; larg; rarg]
  | T_PLAssignStmt indirection val => [indirection; val]
  | T_A_Expr name lexpr rexpr _ => [name; lexpr; rexpr]
  | T_ColumnRef fields _ => [fields]
  | T_ParamRef _ => []
  | T_A_Const _ => []
  | T_A_Star => []
  | T_FuncCall funcname args agg_order agg_filter over _ =>
      [funcname; args; agg_order; agg_filter; over]
  | T_A_Indices lidx uidx => [lidx; uidx]
  | T_A_Indirection arg indirection => [arg; indirection]
  | T_A_ArrayExpr elements _ => [elements]
  | T_ResTarget indirection val _ => [indirection; val]
  | T_MultiAssignRef source => [source]
  | T_TypeCast arg typeName _ => [arg] ++ [T_TypeName typeName]
  | T_CollateClause arg => [arg]
  | T_SortBy node => [node]
  | T_WindowDef partitionClause orderClause startOffset endOffset _ =>
      [partitionClause; orderClause; startOffset; endOffset]
  | T_RangeSubselect subquery alias => [subquery; alias]
  | T_RangeFunction functions alias coldeflist =>
      [functions; alias; coldeflist]
  | T_RangeTableSample relation method args repeatable _ =>
      [relation; method; args; repeatable]
  | T_RangeTableFunc docexpr rowexpr namespaces columns alias =>
      [docexpr; rowexpr; namespaces; columns; alias]
  | T_RangeTableFuncCol colexpr coldefexpr => [colexpr; coldefexpr]
  | T_TypeName tn =>
      [TypeName.names tn; TypeName.typmods tn; TypeName.arrayBounds tn]
  | T_ColumnDef typeName raw_default collClause constraints _ =>
      [typeName; raw_default; collClause; constraints]
  | T_Constraint _ => []
  | T_FunctionParameter argType => [argType]
  | T_IndexElem expr collation opclass => [expr; collation; opclass]
  | T_XmlSerialize expr typeName _ => [expr; typeName]
  | T_GroupingSet content _ => [content]
  | T_LockingClause lockedRels => [lockedRels]
  | T_WithClause ctes _ => [ctes]
  | T_InferClause indexElems whereClause _ => [indexElems; whereClause]
  | T_OnConflictClause infer targetList whereClause _ =>
      [infer; targetList; whereClause]
  | T_CTESearchClause _ => []
  | T_CTECycleClause _ => []
  | T_CommonTableExpr ctequery search_clause cycle_clause _ =>
      [ctequery; search_clause; cycle_clause]
  | T_JsonOutput typeName returning => [typeName; returning]
  | T_JsonKeyValue key value => [key; value]
  | T_JsonObjectConstructor output exprs _ => [output; exprs]
  | T_JsonArrayConstructor output exprs _ => [output; exprs]
  | T_JsonArrayQueryConstructor output query _ => [output; query]
  | T_JsonAggConstructor output agg_order agg_filter over _ =>
      [output; agg_order; agg_filter; over]
  | T_JsonObjectAgg constructor arg => [constructor; arg]
  | T_JsonArrayAgg constructor arg => [constructor; arg]
  | T_PlaceHolderVar phexpr => [phexpr]
  | T_InferenceElem expr => [expr]
  | T_PartitionElem _ => []
  | T_PartitionSpec _ => []
  | T_PartitionBoundSpec _ => []
  | T_PartitionRangeDatum _ => []
  | T_Unlisted _ => []
  end.

(** [reachable root n]: [n] is a node strictly below [root]. *)
Inductive reachable (root : Node) : Node -> Prop :=
| reachable_field (n : Node) :
    In n (subnodes root) -> n <> NULL -> reachable root n
| reachable_below (m n : Node) :
    reachable root m -> In n (subnodes m) -> n <> NULL -> reachable root n.

(** A size measure: one per node, [NULL] counting for nothing. *)
Fixpoint node_size (node : Node) : nat :=
  match node with
  | NULL => 0
  | T_List elements => S (list_sum (map node_size elements))
  | T_RangeVar alias _ => S (node_size alias)
  | T_TableFunc _ => 1
  | T_Var _ => 1
  | T_Const _ => 1
  | T_Param _ => 1
  | T_Aggref _ => 1
  | T_GroupingFunc args _ => S (node_size args)
  | T_WindowFunc _ => 1
  | T_SubscriptingRef refexpr => S (node_size refexpr)
  | T_FuncExpr args _ => S (node_size args)
  | T_NamedArgExpr arg _ => S (node_size arg)
  | T_OpExpr args _ => S (node_size args)
  | T_DistinctExpr args _ => S (node_size args)
  | T_NullIfExpr args _ => S (node_size args)
  | T_ScalarArrayOpExpr args _ => S (node_size args)
  | T_BoolExpr args _ => S (node_size args)
  | T_SubLink testexpr operName subselect _ =>
      S (node_size testexpr + node_size operName + node_size subselect)
  | T_FieldSelect arg => S (node_size arg)
  | T_FieldStore arg => S (node_size arg)
  | T_RelabelType arg _ => S (node_size arg)
  | T_CoerceViaIO arg _ => S (node_size arg)
  | T_ArrayCoerceExpr arg _ => S (node_size arg)
  | T_ConvertRowtypeExpr arg _ => S (node_size arg)
  | T_CollateExpr arg => S (node_size arg)
  | T_CaseExpr arg args defresult _ =>
      S (node_size arg + list_sum (map (fun when => S (node_size
          (CaseWhen.expr when) + node_size (CaseWhen.result when))) args) +
          node_size defresult)
  | T_CaseWhen when =>
      S (node_size (CaseWhen.expr when) + node_size (CaseWhen.result when))
  | T_ArrayExpr _ => 1
  | T_RowExpr args colnames _ => S (node_size args + node_size colnames)
  | T_RowCompareExpr largs => S (node_size largs)
  | T_CoalesceExpr args _ => S (node_size args)
  | T_MinMaxExpr args _ => S (node_size args)
  | T_SQLValueFunction _ => 1
  | T_XmlExpr named_args arg_names args _ =>
      S (node_size named_args + node_size arg_names + node_size args)
  | T_JsonFormat _ => 1
  | T_JsonReturning format => S (node_size format)
  | T_JsonValueExpr raw_expr formatted_expr format =>
      S (node_size raw_expr + node_size formatted_expr + node_size format)
  | T_JsonConstructorExpr args func coercion returning _ =>
      S (node_size args + node_size func + node_size coercion + node_size
          returning)
  | T_JsonIsPredicate expr _ => S (node_size expr)
  | T_NullTest arg _ => S (node_size arg)
  | T_BooleanTest arg _ => S (node_size arg)
  | T_CoerceToDomain arg _ => S (node_size arg)
  | T_CoerceToDomainValue _ => 1
  | T_SetToDefault _ => 1
  | T_CurrentOfExpr => 1
  | T_TargetEntry expr => S (node_size expr)
  | T_JoinExpr larg rarg usingClause quals alias =>
      S (node_size larg + node_size rarg + node_size usingClause + node_size
          quals + node_size alias)
  | T_IntoClause rel colNames options viewQuery =>
      S (node_size rel + node_size colNames + node_size options + node_size
          viewQuery)
  | T_Alias colnames => S (node_size colnames)
  | T_Integer => 1
  | T_Float => 1
  | T_Boolean => 1
  | T_String => 1
  | T_BitString => 1
  | T_InsertStmt relation cols selectStmt onConflictClause returningList
      withClause =>
      S (node_size relation + node_size cols + node_size selectStmt +
          node_size onConflictClause + node_size returningList + node_size
          withClause)
  | T_DeleteStmt relation usingClause whereClause returningList withClause =>
      S (node_size relation + node_size usingClause + node_size whereClause +
          node_size returningList + node_size withClause)
  | T_UpdateStmt relation targetList whereClause fromClause returningList
      withClause =>
      S (node_size relation + node_size targetList + node_size whereClause +
          node_size fromClause + node_size returningList + node_size
          withClause)
  | T_MergeStmt relation sourceRelation joinCondition mergeWhenClauses
      withClause =>
      S (node_size relation + node_size sourceRelation + node_size
          joinCondition + node_size mergeWhenClauses + node_size withClause)
  | T_MergeWhenClause condition targetList values =>
      S (node_size condition + node_size targetList + node_size values)
  | T_SelectStmt distinctClause intoClause targetList fromClause whereClause
      groupClause havingClause windowClause valuesLists sortClause
      limitOffset limitCount lockingClause withClause larg rarg =>
      S (node_size distinctClause + node_size intoClause + node_size
          targetList + node_size fromClause + node_size whereClause +
          node_size groupClause + node_size havingClause + node_size
          windowClause + node_size valuesLists + node_size sortClause +
          node_size limitOffset + node_size limitCount + node_size
          lockingClause + node_size withClause + node_size larg + node_size
          rarg)
  | T_PLAssignStmt indirection val =>
      S (node_size indirection + node_size val)
  | T_A_Expr name lexpr rexpr _ =>
      S (node_size name + node_size lexpr + node_size rexpr)
  | T_ColumnRef fields _ => S (node_size fields)
  | T_ParamRef _ => 1
  | T_A_Const _ => 1
  | T_A_Star => 1
  | T_FuncCall funcname args agg_order agg_filter over _ =>
      S (node_size funcname + node_size args + node_size agg_order +
          node_size agg_filter + node_size over)
  | T_A_Indices lidx uidx => S (node_size lidx + node_size uidx)
  | T_A_Indirection arg indirection =>
      S (node_size arg + node_size indirection)
  | T_A_ArrayExpr elements _ => S (node_size elements)
  | T_ResTarget indirection val _ => S (node_size indirection + node_size val)
  | T_MultiAssignRef source => S (node_size source)
  | T_TypeCast arg typeName _ =>
      S (node_size arg + S (node_size (TypeName.names typeName) + node_size
          (TypeName.typmods typeName) + node_size (TypeName.arrayBounds
          typeName)))
  | T_CollateClause arg => S (node_size arg)
  | T_SortBy node => S (node_size node)
  | T_WindowDef partitionClause orderClause startOffset endOffset _ =>
      S (node_size partitionClause + node_size orderClause + node_size
          startOffset + node_size endOffset)
  | T_RangeSubselect subquery alias =>
      S (node_size subquery + node_size alias)
  | T_RangeFunction functions alias coldeflist =>
      S (node_size functions + node_size alias + node_size coldeflist)
  | T_RangeTableSample relation method args repeatable _ =>
      S (node_size relation + node_size method + node_size args + node_size
          repeatable)
  | T_RangeTableFunc docexpr rowexpr namespaces columns alias =>
      S (node_size docexpr + node_size rowexpr + node_size namespaces +
          node_size columns + node_size alias)
  | T_RangeTableFuncCol colexpr coldefexpr =>
      S (node_size colexpr + node_size coldefexpr)
  | T_TypeName tn =>
      S (node_size (TypeName.names tn) + node_size (TypeName.typmods tn) +
          node_size (TypeName.arrayBounds tn))
  | T_ColumnDef typeName raw_default collClause constraints _ =>
      S (node_size typeName + node_size raw_default + node_size collClause +
          node_size constraints)
  | T_Constraint _ => 1
  | T_FunctionParameter argType => S (node_size argType)
  | T_IndexElem expr collation opclass =>
      S (node_size expr + node_size collation + node_size opclass)
  | T_XmlSerialize expr typeName _ => S (node_size expr + node_size typeName)
  | T_GroupingSet content _ => S (node_size content)
  | T_LockingClause lockedRels => S (node_size lockedRels)
  | T_WithClause ctes _ => S (node_size ctes)
  | T_InferClause indexElems whereClause _ =>
      S (node_size indexElems + node_size whereClause)
  | T_OnConflictClause infer targetList whereClause _ =>
      S (node_size infer + node_size targetList + node_size whereClause)
  | T_CTESearchClause _ => 1
  | T_CTECycleClause _ => 1
  | T_CommonTableExpr ctequery search_clause cycle_clause _ =>
      S (node_size ctequery + node_size search_clause + node_size
          cycle_clause)
  | T_JsonOutput typeName returning =>
      S (node_size typeName + node_size returning)
  | T_JsonKeyValue key value => S (node_size key + node_size value)
  | T_JsonObjectConstructor output exprs _ =>
      S (node_size output + node_size exprs)
  | T_JsonArrayConstructor output exprs _ =>
      S (node_size output + node_size exprs)
  | T_JsonArrayQueryConstructor output query _ =>
      S (node_size output + node_size query)
  | T_JsonAggConstructor output agg_order agg_filter over _ =>
      S (node_size output + node_size agg_order + node_size agg_filter +
          node_size over)
  | T_JsonObjectAgg constructor arg =>
      S (node_size constructor + node_size arg)
  | T_JsonArrayAgg constructor arg =>
      S (node_size constructor + node_size arg)
  | T_PlaceHolderVar phexpr => S (node_size phexpr)
  | T_InferenceElem expr => S (node_size expr)
  | T_PartitionElem _ => 1
  | T_PartitionSpec _ => 1
  | T_PartitionBoundSpec _ => 1
  | T_PartitionRangeDatum _ => 1
  | T_Unlisted _ => 1
  end.

(** The diagnostic of the walker's [default] arm. *)
Definition unrecognized_notice {Ctx : Type} {E : Engine Ctx} (node : Node)
  : ElogLevel * string :=
  (NOTICE,
   ("unrecognized node type: "
    ++ format_d (NodeTag_value (nodeTag node)))%string).

(** The world after the walker's [switch] has been passed without the
    callback stopping the walk: unchanged for a recognized kind, one notice
    longer otherwise. *)
Definition after_switch {Ctx : Type} {E : Engine Ctx} (node : Node)
  (w : World Ctx) : World Ctx :=
  if walker_recognizes node then w
  else mkWorld (context w) (elog_output w ++ [unrecognized_notice node]).

(** [declined walker l w w']: called on the members of [l] one after the
    other, starting in [w], the callback returns [false] each time and leaves
    the world [w']. *)
Inductive declined {Ctx : Type} (walker : tree_walker_callback Ctx)
  : list Node -> World Ctx -> World Ctx -> Prop :=
| declined_nil (w : World Ctx) : declined walker [] w w
| declined_cons (n : Node) (l : list Node) (w w1 w2 : World Ctx) :
    walker n w = Returns false w1 ->
    declined walker l w1 w2 ->
    declined walker (n :: l) w w2.

(** The callback's special action used below: note the node in the
    context. *)
Definition record_visit (node : Node) : M (list Node) unit :=
  fun w => Returns tt (mkWorld (context w ++ [node]) (elog_output w)).

(** The callback the source's comment prescribes ("a walker routine should
    look like this"): return [false] on [NULL]; do the special action, here
    noting the node; return [true] to abort the walk if the node is what the
    routine came for ([stop]); otherwise hand the node to the tree walker
    with itself as the callback.  [fuel] bounds the nesting of calls, as the
    C stack does. *)
Fixpoint my_walker {E : Engine (list Node)} (stop : Node -> bool) (fuel : nat)
  (node : Node) : M (list Node) bool :=
  if is_NULL node then ret false
  else
    match fuel with
    | O => fun w => Raises ERROR "stack depth limit exceeded"%string w
    | S fuel' =>
        record_visit node ;;
        if stop node then ret true
        else raw_expression_tree_walker_impl node (my_walker stop fuel')
    end.

(** A callback that never aborts the walk. *)
Definition never (node : Node) : bool := false.

(** The members of [l] up to and including the first one [stop] holds of. *)
Fixpoint upto_first (stop : Node -> bool) (l : list Node) : list Node :=
  match l with
  | [] => []
  | n :: l' => n :: (if stop n then [] else upto_first stop l')
  end.

(** [walk_order fields visited]: [visited] lists, depth first and left to
    right, the nodes found from the pointers [fields] by following
    [walk_fields]; each occurrence is listed once, before what lies below
    it. *)
Inductive walk_order : list Node -> list Node -> Prop :=
| walk_order_nil : walk_order [] []
| walk_order_NULL (fields visited : list Node) :
    walk_order fields visited ->
    walk_order (NULL :: fields) visited
| walk_order_node (n : Node) (fields below beside : list Node) :
    is_NULL n = false ->
    walk_order (walk_fields n) below ->
    walk_order fields beside ->
    walk_order (n :: fields) (n :: below ++ beside).

(** ** The parse entry point ([pg_query_internal.h]) *)

Definition STDERR_BUFFER_LEN : nat := 4096.

(** Modelled from the spec: [PgQueryError] is declared outside the sources;
    its fields are the ones the specification lists.  The cursor position is
    1-based, 0 if unknown. *)
Record PgQueryError : Type :=
  { message : string;
    functionName : string;
    fileName : string;
    lineNumber : Z;
    cursorPosition : Z }.

Record PgQueryInternalParsetreeAndError : Type :=
  { tree : Node;               (* List *tree; NIL is NULL *)
    stderr_buffer : string;
    error : option PgQueryError }.

(** Modelled from the spec: what a run of the vendored grammar and lexer
    comes to, a statement sequence or a failure, with the diagnostic output
    produced on the way. *)
Inductive GrammarOutcome : Type :=
| Parsed (stmts : Node) (diagnostics : string)
| Failed (err : PgQueryError) (diagnostics : string).

(** Modelled from the spec: the body of [pg_query_raw_parse] is not among the
    sources, only its declaration is.  Empty input yields an empty tree and
    no error.  Otherwise the embedded grammar is invoked; on success the
    statement sequence is returned with no error, on any failure an empty
    tree and a populated error; the diagnostic output of the call is captured
    into the buffer, truncated to its length. *)
Definition pg_query_raw_parse (raw_parser : string -> Z -> GrammarOutcome)
  (input : string) (parser_options : Z) : PgQueryInternalParsetreeAndError :=
  match input with
  | EmptyString =>
      {| tree := NULL; stderr_buffer := EmptyString; error := None |}
  | _ =>
      match raw_parser input parser_options with
      | Parsed stmts diagnostics =>
          {| tree := stmts;
             stderr_buffer := substring 0 STDERR_BUFFER_LEN diagnostics;
             error := None |}
      | Failed err diagnostics =>
          {| tree := NULL;
             stderr_buffer := substring 0 STDERR_BUFFER_LEN diagnostics;
             error := Some err |}
      end
  end.

(** ** Sample inputs *)

(** An engine whose stack guard never fires and whose tag numbering only
    tells the unlisted tags apart; used to run the definitions on concrete
    inputs. *)
Definition sample_engine (Ctx : Type) : Engine Ctx :=
  {| NodeTag_value := fun tag =>
       match tag with
       | NodeTag.T_Unlisted k => 1000 + Z.of_nat k
       | _ => 0
       end;
     stack_is_too_deep := fun _ => false |}.

Definition is_star (node : Node) : bool :=
  match node with
  | T_A_Star => true
  | _ => false
  end.

(** A callback that counts its invocations in the context and stops the walk
    at a [*]. *)
Definition stop_at_star : tree_walker_callback nat :=
  fun node w =>
    Returns (is_star node) (mkWorld (S (context w)) (elog_output w)).

(** [CASE WHEN a THEN 1 END]: the CASE at offset 0, its arm at 5, [a] at 10,
    [1] at 17. *)
Definition sample_when : CaseWhen.t Node :=
  CaseWhen.Build (T_ColumnRef NULL 10) (T_A_Const 17) 5.

Definition sample_case : Node := T_CaseExpr NULL [sample_when] NULL 0.

(** [WITH t AS (SELECT) SEARCH ...]: a common table expression over an
    empty SELECT, with a search clause at offset 20. *)
Definition sample_cte : Node :=
  T_CommonTableExpr
    (T_SelectStmt NULL NULL NULL NULL NULL NULL NULL NULL NULL NULL NULL NULL
       NULL NULL NULL NULL)
    (T_CTESearchClause 20) NULL 5.

(** The walk of [root] with the prescribed callback, from an empty record and
    an empty diagnostic channel. *)
Definition sample_walk (stop : Node -> bool) (fuel : nat) (root : Node)
  : Outcome (list Node) bool :=
  raw_expression_tree_walker_impl (E := sample_engine (list Node)) root
    (my_walker (E := sample_engine (list Node)) stop fuel) (mkWorld [] []).

(** [SELECT a, * FROM t WHERE b]: only the target list, the FROM list and
    the WHERE clause are present. *)
Definition sample_select : Node :=
  T_SelectStmt NULL NULL
    (T_List [T_ResTarget NULL (T_ColumnRef NULL 7) 7;
             T_ResTarget NULL T_A_Star 10])
    (T_List [T_RangeVar NULL 17])
    (T_ColumnRef NULL 25)
    NULL NULL NULL NULL NULL NULL NULL NULL NULL NULL NULL.

(** ** Vocabulary of the further properties *)

(** [stored_in n v]: [v] is the [location] field of [n] or of a node below
    it. *)
Definition stored_in (n : Node) (v : Z) : Prop :=
  exists m : Node, (m = n \/ reachable n m) /\ node_location m = Some v.

(** Every location field in the tree is an offset or the sentinel -1. *)
Definition locations_valid (n : Node) : Prop :=
  forall v : Z, stored_in n v -> -1 <= v.


(** The nodes of [visited] for which the prescribed callback hands the node
    to the walker and the walker has no arm. *)
Definition unrecognized_among (stop : Node -> bool) (visited : list Node)
  : list Node :=
  filter (fun n => negb (stop n) && negb (walker_recognizes n)) visited.

(** The kinds whose resolved location is [leftmostLoc] of their own location
    and the resolved location of their argument list. *)
Definition args_and_location (node : Node) : option (Node * Z) :=
  match node with
  | T_FuncExpr args location
  | T_OpExpr args location
  | T_DistinctExpr args location
  | T_NullIfExpr args location
  | T_ScalarArrayOpExpr args location
  | T_BoolExpr args location
  | T_XmlExpr _ _ args location
  | T_FuncCall _ args _ _ _ location => Some (args, location)
  | _ => None
  end.

(** A callback that logs a warning about every node it is given and
    declines. *)
Definition warn_and_decline : tree_walker_callback nat :=
  fun node w =>
    Returns false
      (mkWorld (context w) (elog_output w ++ [(WARNING, "seen"%string)])).

(** A callback that raises an error at a [*] and declines otherwise. *)
Definition raise_at_star : tree_walker_callback nat :=
  fun node w =>
    if is_star node
    then Raises ERROR "star"%string (mkWorld (S (context w)) (elog_output w))
    else Returns false (mkWorld (S (context w)) (elog_output w)).

(** [v] is the unknown sentinel, or a location stored in the tree [n]. *)
Definition unknown_or_stored (n : Node) (v : Z) : Prop :=
  v = -1 \/ stored_in n v.

(** [a + b]: [a] at offset 0, [+] at 2, [b] at 4. *)
Definition sample_a_plus_b : Node :=
  T_A_Expr NULL (T_ColumnRef NULL 0) (T_ColumnRef NULL 4) 2.

(** [x IS NOT BETWEEN ...] as the grammar builds it: a NOT-expression whose
    keyword, at offset 5, is right of its leftmost argument [x], at 0. *)
Definition sample_not_between : Node :=
  T_BoolExpr (T_List [T_A_Expr NULL (T_ColumnRef NULL 0) NULL 9]) 5.

(** A list holding a DDL statement (an unlisted kind) between two
    expressions; [CaseWhen] outside a CASE is a kind the walker has no arm
    for either. *)
Definition sample_mixed : Node :=
  T_List [T_A_Const 1; T_Unlisted 76; T_CaseWhen sample_when; T_A_Star].

(** * Properties of the location resolver *)

Lemma Min_min (x y : Z) : Min x y = Z.min x y.
Proof.
  unfold Min. destruct (Z.ltb_spec x y); lia.
Qed.

Lemma leftmostLoc_known (a b : Z) :
  0 <= a -> 0 <= b -> leftmostLoc a b = Z.min a b.
Proof.
  intros Ha Hb. unfold leftmostLoc.
  destruct (Z.ltb_spec a 0); [lia |].
  destruct (Z.ltb_spec b 0); [lia |].
  apply Min_min.
Qed.

Lemma leftmostLoc_unknown_l (b : Z) : leftmostLoc (-1) b = b.
Proof. reflexivity. Qed.

Lemma leftmostLoc_unknown_r (a : Z) : -1 <= a -> leftmostLoc a (-1) = a.
Proof.
  intros Ha. unfold leftmostLoc.
  destruct (Z.ltb_spec a 0); [lia | reflexivity].
Qed.

(** What [leftmostLoc] returns is one of its arguments; it is negative only
    if both are, and it is not right of any known argument. *)
Lemma leftmostLoc_cases (a b : Z) :
  (a < 0 /\ leftmostLoc a b = b)
  \/ (0 <= a /\ b < 0 /\ leftmostLoc a b = a)
  \/ (0 <= a /\ 0 <= b /\ leftmostLoc a b = Z.min a b).
Proof.
  unfold leftmostLoc.
  destruct (Z.ltb_spec a 0); [left; split; [assumption | reflexivity] |].
  destruct (Z.ltb_spec b 0).
  - right; left. repeat split; assumption.
  - right; right. repeat split; try assumption. apply Min_min.
Qed.

(** CLAIM C2 (as stated, refuted): [leftmostLoc(x, -1) = x] "for every
    integer x" fails at [x = -2]: the code takes any negative first argument
    for unknown and returns the second, here -1. *)
Lemma leftmostLoc_negative_left_counterexample :
  leftmostLoc (-2) (-1) = -1 /\ leftmostLoc (-2) (-1) <> -2.
Proof.
  split; [reflexivity | discriminate].
Qed.

(** CLAIM C2 (amended): [leftmostLoc (-1) x = x] for every [x];
    [leftmostLoc x (-1) = x] for every location [x], that is every
    [x >= -1]; and [leftmostLoc a b = min a b] when both are known, so the
    sentinel is never returned in place of a known location. *)
Theorem leftmostLoc_identity_and_min (x a b : Z) :
  leftmostLoc (-1) x = x
  /\ (-1 <= x -> leftmostLoc x (-1) = x)
  /\ (0 <= a -> 0 <= b -> leftmostLoc a b = Z.min a b).
Proof.
  split; [apply leftmostLoc_unknown_l |].
  split; [apply leftmostLoc_unknown_r | apply leftmostLoc_known].
Qed.

Lemma leftmostLoc_identity_and_min_witness :
  leftmostLoc (-1) 7 = 7
  /\ leftmostLoc 7 (-1) = 7
  /\ leftmostLoc 3 5 = Z.min 3 5.
Proof.
  destruct (leftmostLoc_identity_and_min 7 3 5) as (Hl & Hr & Hmin).
  split; [exact Hl |].
  split; [apply Hr; lia | apply Hmin; lia].
Defined.

(** CLAIM C3 (as stated, refuted): an [A_Expr] is in the group of kinds said
    to return their location field verbatim, yet for [a + b] with [a] at
    offset 0 and [+] at offset 2 the operator node, whose field holds 2,
    resolves to 0. *)
Lemma exprLocation_A_Expr_not_verbatim_counterexample :
  let a_plus_b :=
    T_A_Expr NULL (T_ColumnRef NULL 0) (T_ColumnRef NULL 4) 2 in
  explicit_location_group a_plus_b = true
  /\ node_location a_plus_b = Some 2
  /\ exprLocation a_plus_b = 0
  /\ exprLocation a_plus_b <> 2.
Proof.
  cbv zeta. repeat split. discriminate.
Qed.

(** CLAIM C3 (amended): for every node of a kind in the group,
    [exprLocation] returns the node's location field verbatim, with these
    exceptions: for [A_Expr], [NullTest], [BooleanTest] and [CoerceToDomain]
    it returns [leftmostLoc] of the field and the resolved location of the
    left operand, respectively the argument; an [A_Star] stores no location
    and resolves to -1; a [FunctionParameter] stores none either and
    resolves to what its [argType] resolves to. *)
Theorem exprLocation_explicit_location (node : Node) :
  explicit_location_group node = true ->
  match node with
  | T_A_Expr _ arg _ location
  | T_NullTest arg location
  | T_BooleanTest arg location
  | T_CoerceToDomain arg location =>
      node_location node = Some location
      /\ exprLocation node = leftmostLoc location (exprLocation arg)
  | T_A_Star => exprLocation node = -1
  | T_FunctionParameter argType => exprLocation node = exprLocation argType
  | _ => node_location node = Some (exprLocation node)
  end.
Proof.
  intros Hgroup.
  destruct node; simpl in Hgroup; try discriminate Hgroup;
    try split; reflexivity.
Qed.

Lemma exprLocation_explicit_location_witness :
  exprLocation (T_RowExpr (T_List [T_ColumnRef NULL 3]) NULL 10) = 10
  /\ exprLocation (T_NullTest (T_ColumnRef NULL 0) 5) = 0
  /\ exprLocation sample_a_plus_b = 0
  /\ exprLocation (T_FunctionParameter (T_TypeName
                      (TypeName.Build NULL NULL NULL 21))) = 21.
Proof.
  split; [| split; [| split]].
  - pose proof (exprLocation_explicit_location
                  (T_RowExpr (T_List [T_ColumnRef NULL 3]) NULL 10) eq_refl)
      as Hrow.
    apply (f_equal (fun o => match o with Some v => v | None => -1 end))
      in Hrow.
    symmetry. exact Hrow.
  - destruct (exprLocation_explicit_location
                (T_NullTest (T_ColumnRef NULL 0) 5) eq_refl) as (_ & Hnull).
    exact Hnull.
  - destruct (exprLocation_explicit_location sample_a_plus_b eq_refl)
      as (_ & Hexpr).
    exact Hexpr.
  - exact (exprLocation_explicit_location
             (T_FunctionParameter
                (T_TypeName (TypeName.Build NULL NULL NULL 21))) eq_refl).
Defined.



(** The loop of [exprLocation]'s [T_List] arm, started with [loc]. *)
Lemma exprLocation_T_List_nil : exprLocation (T_List []) = -1.
Proof. reflexivity. Qed.

Lemma exprLocation_T_List_known (member : Node) (rest : list Node) :
  0 <= exprLocation member ->
  exprLocation (T_List (member :: rest)) = exprLocation member.
Proof.
  intros Hknown. simpl.
  destruct (Z.geb_spec (exprLocation member) 0); [reflexivity | lia].
Qed.

(** A member without a known location is passed over, unless it is the last
    one: then its (negative) result is what the loop is left with. *)
Lemma exprLocation_T_List_unknown (member next : Node) (rest : list Node) :
  exprLocation member < 0 ->
  exprLocation (T_List (member :: next :: rest))
  = exprLocation (T_List (next :: rest)).
Proof.
  intros Hunknown. simpl.
  destruct (Z.geb_spec (exprLocation member) 0); [lia | reflexivity].
Qed.

Lemma exprLocation_T_List_last (member : Node) :
  exprLocation (T_List [member]) = exprLocation member.
Proof.
  simpl. destruct (exprLocation member >=? 0); reflexivity.
Qed.

Lemma exprLocation_T_List_first_known (pre post : list Node) (member : Node) :
  Forall (fun n => exprLocation n < 0) pre ->
  0 <= exprLocation member ->
  exprLocation (T_List (pre ++ member :: post)) = exprLocation member.
Proof.
  intros Hpre Hknown.
  induction Hpre as [| n pre Hn _ IH].
  - apply exprLocation_T_List_known, Hknown.
  - destruct pre as [| n' pre]; simpl app in *.
    + rewrite exprLocation_T_List_unknown by exact Hn. exact IH.
    + rewrite exprLocation_T_List_unknown by exact Hn. exact IH.
Qed.

Lemma exprLocation_T_List_all_unknown (l : list Node) :
  Forall (fun n => exprLocation n = -1) l ->
  exprLocation (T_List l) = -1.
Proof.
  intros Hall.
  induction Hall as [| n l Hn _ IH].
  - reflexivity.
  - destruct l as [| n' l].
    + rewrite exprLocation_T_List_last. exact Hn.
    + rewrite exprLocation_T_List_unknown by lia. exact IH.
Qed.

Lemma exprLocation_T_List_none_known (l : list Node) :
  Forall (fun n => exprLocation n < 0) l ->
  exprLocation (T_List l) < 0.
Proof.
  intros Hall.
  induction Hall as [| n l Hn _ IH].
  - rewrite exprLocation_T_List_nil. lia.
  - destruct l as [| n' l].
    + rewrite exprLocation_T_List_last. exact Hn.
    + rewrite exprLocation_T_List_unknown by exact Hn. exact IH.
Qed.

(** With no known member, the loop is left with what the last member
    resolves to. *)
Lemma exprLocation_T_List_keeps_last (l : list Node) (last : Node) :
  Forall (fun n => exprLocation n < 0) l ->
  exprLocation (T_List (l ++ [last])) = exprLocation last.
Proof.
  intros Hall.
  induction Hall as [| n l Hn _ IH].
  - apply exprLocation_T_List_last.
  - destruct l as [| n' l]; simpl app in *.
    + rewrite exprLocation_T_List_unknown by exact Hn. exact IH.
    + rewrite exprLocation_T_List_unknown by exact Hn. exact IH.
Qed.

(** CLAIM C7 (as stated, refuted): a list none of whose members resolves to
    a known location ([>= 0]) does not always resolve to -1: the loop keeps
    what the last member resolved to, so two constants whose location fields
    hold -5 and -7 give -7. *)
Lemma exprLocation_List_no_known_member_counterexample :
  let members := [T_A_Const (-5); T_A_Const (-7)] in
  Forall (fun n => ~ 0 <= exprLocation n) members
  /\ exprLocation (T_List members) = -7
  /\ exprLocation (T_List members) <> -1.
Proof.
  cbv zeta. split; [| split].
  - repeat constructor; simpl; lia.
  - reflexivity.
  - discriminate.
Qed.

(** CLAIM C7 (amended): a [List] resolves to the resolved location of its
    first member, in order, whose resolved location is known ([>= 0]), for
    instance to [loc] when that member is a constant at a known [loc]; to -1
    when it is empty; when it has members and none resolves to a known
    location, to what its last member resolves to, which is negative, and is
    -1 when every member resolves to the sentinel -1; and
    [[absent, absent, N]] resolves to what [N] resolves to. *)
Theorem exprLocation_List (pre post l : list Node) (member N : Node)
  (loc : Z) :
  (Forall (fun n => exprLocation n < 0) pre ->
   0 <= exprLocation member ->
   exprLocation (T_List (pre ++ member :: post)) = exprLocation member)
  /\ (Forall (fun n => exprLocation n < 0) pre ->
      0 <= loc ->
      exprLocation (T_List (pre ++ T_A_Const loc :: post)) = loc)
  /\ exprLocation (T_List []) = -1
  /\ (Forall (fun n => exprLocation n < 0) l ->
      exprLocation N < 0 ->
      exprLocation (T_List (l ++ [N])) = exprLocation N)
  /\ (Forall (fun n => exprLocation n = -1) l ->
      exprLocation (T_List l) = -1)
  /\ (Forall (fun n => exprLocation n < 0) l ->
      exprLocation (T_List l) < 0)
  /\ exprLocation (T_List [NULL; NULL; N]) = exprLocation N.
Proof.
  split; [apply exprLocation_T_List_first_known |].
  split; [intros Hpre Hloc;
          apply (exprLocation_T_List_first_known pre post (T_A_Const loc));
          assumption |].
  split; [reflexivity |].
  split; [intros Hall _; apply exprLocation_T_List_keeps_last, Hall |].
  split; [apply exprLocation_T_List_all_unknown |].
  split; [apply exprLocation_T_List_none_known |].
  rewrite exprLocation_T_List_unknown by (simpl; lia).
  rewrite exprLocation_T_List_unknown by (simpl; lia).
  apply exprLocation_T_List_last.
Qed.

Lemma exprLocation_List_witness :
  exprLocation
    (T_List ([NULL; T_A_Star] ++ T_ColumnRef NULL 9 :: [T_ColumnRef NULL 3]))
  = 9
  /\ exprLocation
       (T_List ([NULL; T_A_Star] ++ T_A_Const 9 :: [T_ColumnRef NULL 3]))
     = 9
  /\ exprLocation (T_List ([T_A_Const (-5)] ++ [T_A_Const (-7)])) = -7
  /\ exprLocation (T_List [NULL; T_A_Star]) = -1.
Proof.
  destruct (exprLocation_List [NULL; T_A_Star] [T_ColumnRef NULL 3]
              [NULL; T_A_Star] (T_ColumnRef NULL 9) NULL 9)
    as (Hfirst & Hconst & _ & _ & Hall & _ & _).
  destruct (exprLocation_List [] [] [T_A_Const (-5)] NULL (T_A_Const (-7)) 0)
    as (_ & _ & _ & Hlast & _ & _ & _).
  split; [| split; [| split]].
  - apply Hfirst.
    + repeat constructor.
    + simpl. lia.
  - apply Hconst.
    + repeat constructor.
    + lia.
  - apply Hlast.
    + repeat constructor.
    + simpl. lia.
  - apply Hall. repeat constructor.
Defined.



(** * Properties of the raw parse-tree walker *)

Section Foreach.

Context {Ctx : Type}.
Variable walker : tree_walker_callback Ctx.

Lemma run_bind {A B : Type} (c : M Ctx A) (k : A -> M Ctx B) (w : World Ctx) :
  bind c k w
  = match c w with
    | Returns a w' => k a w'
    | Raises elevel msg w' => Raises elevel msg w'
    end.
Proof. reflexivity. Qed.

(** [return WALK(x);] and [if (WALK(x)) return true; break;] come to the
    same. *)
Lemma if_return_true_break (c : M Ctx bool) (w : World Ctx) :
  (IF c RETURN_TRUE ;; ret false) w = c w.
Proof.
  unfold bind, ret. destruct (c w) as [[|] w' | elevel msg w']; reflexivity.
Qed.

Lemma foreach_singleton (n : Node) (w : World Ctx) :
  foreach [n] walker w = walker n w.
Proof. apply if_return_true_break. Qed.

Lemma foreach_app (l1 l2 : list Node) (w : World Ctx) :
  foreach (l1 ++ l2) walker w
  = (IF foreach l1 walker RETURN_TRUE ;; foreach l2 walker) w.
Proof.
  revert w. induction l1 as [| n l1 IH]; intros w.
  - reflexivity.
  - simpl. unfold bind.
    destruct (walker n w) as [[|] w' | elevel msg w']; try reflexivity.
    rewrite IH. reflexivity.
Qed.

(** The loop over the WHEN arms of a CASE visits what the loop over their
    conditions and results, laid out in a row, visits. *)
Lemma foreach_CaseWhen (args : list (CaseWhen.t Node)) (w : World Ctx) :
  foreach args
    (fun when =>
       IF walker (CaseWhen.expr when) RETURN_TRUE ;;
       IF walker (CaseWhen.result when) RETURN_TRUE ;;
       ret false) w
  = foreach
      (flat_map (fun when => [CaseWhen.expr when; CaseWhen.result when]) args)
      walker w.
Proof.
  revert w. induction args as [| when args IH]; intros w.
  - reflexivity.
  - simpl. unfold bind.
    destruct (walker (CaseWhen.expr when) w) as [[|] w1 | elevel msg w1];
      try reflexivity.
    destruct (walker (CaseWhen.result when) w1) as [[|] w2 | elevel msg w2];
      try reflexivity.
    simpl. apply IH.
Qed.

Lemma foreach_false_iff (l : list Node) (w w' : World Ctx) :
  foreach l walker w = Returns false w' <-> declined walker l w w'.
Proof.
  split.
  - revert w. induction l as [| n l IH]; intros w Hrun.
    + injection Hrun as <-. constructor.
    + simpl in Hrun. unfold bind in Hrun.
      destruct (walker n w) as [[|] w1 | elevel msg w1] eqn:Hn;
        try discriminate.
      econstructor; [exact Hn | apply IH, Hrun].
  - intros Hdeclined.
    induction Hdeclined as [w | n l w w1 w2 Hn _ IH].
    + reflexivity.
    + simpl. unfold bind. rewrite Hn. exact IH.
Qed.

Lemma foreach_true_iff (l : list Node) (w w' : World Ctx) :
  foreach l walker w = Returns true w'
  <-> exists (pre post : list Node) (n : Node) (w1 : World Ctx),
        l = pre ++ n :: post
        /\ declined walker pre w w1
        /\ walker n w1 = Returns true w'.
Proof.
  split.
  - revert w. induction l as [| n l IH]; intros w Hrun.
    + discriminate.
    + simpl in Hrun. unfold bind in Hrun.
      destruct (walker n w) as [[|] w1 | elevel msg w1] eqn:Hn;
        try discriminate.
      * injection Hrun as <-.
        exists [], l, n, w. repeat split; [constructor | exact Hn].
      * destruct (IH _ Hrun) as (pre & post & m & w2 & -> & Hpre & Hm).
        exists (n :: pre), post, m, w2.
        repeat split; [econstructor; eassumption | exact Hm].
  - intros (pre & post & n & w1 & -> & Hpre & Hn).
    induction Hpre as [w | m pre w w1 w2 Hm _ IH].
    + simpl. unfold bind. rewrite Hn. reflexivity.
    + simpl. unfold bind. rewrite Hm. apply IH, Hn.
Qed.

End Foreach.

(** The walker does on a node what the loop over an ordered sequence does on
    the node's row of walked fields; on a kind it has no arm for, it logs the
    notice instead. *)
Lemma walker_as_table {Ctx : Type} {E : Engine Ctx} (node : Node)
  (walker : tree_walker_callback Ctx) (w : World Ctx) :
  is_NULL node = false ->
  stack_is_too_deep w = false ->
  raw_expression_tree_walker_impl node walker w
  = if walker_recognizes node
    then foreach (walk_fields node) walker w
    else Returns false
           (mkWorld (context w) (elog_output w ++ [unrecognized_notice node])).
Proof.
  intros Hnode Hstack.
  unfold raw_expression_tree_walker_impl. rewrite Hnode.
  unfold bind at 1. unfold check_stack_depth. rewrite Hstack.
  destruct node; try discriminate Hnode;
    try reflexivity;
    try (symmetry; apply foreach_singleton).
  - (* T_List *)
    apply if_return_true_break.
  - (* T_CaseExpr *)
    cbv zeta. cbn [walker_recognizes walk_fields].
    match goal with
    | |- _ = foreach (?arg :: ?whens ++ ?defresult) _ _ =>
        change (arg :: whens ++ defresult)
          with ([arg] ++ whens ++ defresult)
    end.
    rewrite foreach_app, !run_bind, foreach_singleton.
    destruct (walker _ w) as [[|] w1 | elevel msg w1]; try reflexivity.
    cbv beta iota.
    rewrite foreach_app, !run_bind, foreach_CaseWhen.
    destruct (foreach _ walker w1) as [[|] w2 | elevel msg w2];
      reflexivity.
Qed.

Lemma unrecognized_no_fields (node : Node) :
  walker_recognizes node = false -> walk_fields node = [].
Proof.
  destruct node; simpl; intros Hkind; try reflexivity; discriminate Hkind.
Qed.

(** The stack guard comes first: when it fires, the walker raises its error
    before looking at the node's kind, and the callback is not called. *)
Lemma walker_stack_depth_exceeded {Ctx : Type} {E : Engine Ctx} (node : Node)
  (walker : tree_walker_callback Ctx) (w : World Ctx) :
  is_NULL node = false ->
  stack_is_too_deep w = true ->
  raw_expression_tree_walker_impl node walker w
  = Raises ERROR "stack depth limit exceeded"%string w.
Proof.
  intros Hnode Hstack.
  unfold raw_expression_tree_walker_impl. rewrite Hnode.
  unfold bind at 1. unfold check_stack_depth. rewrite Hstack.
  reflexivity.
Qed.

(** On [NULL] the walker returns [false] at once. *)
Lemma walker_NULL {Ctx : Type} {E : Engine Ctx}
  (walker : tree_walker_callback Ctx) (w : World Ctx) :
  raw_expression_tree_walker_impl NULL walker w = Returns false w.
Proof. reflexivity. Qed.

(** CLAIM C4: on a node of a kind it has no arm for (every unlisted tag, so
    every DDL statement), the walker logs one notice-level diagnostic that
    names the kind by its tag number, calls the callback on nothing, and
    returns [false] to its caller. *)
Theorem walker_unrecognized_kind {Ctx : Type} {E : Engine Ctx} (node : Node)
  (walker : tree_walker_callback Ctx) (w : World Ctx) :
  is_NULL node = false ->
  walker_recognizes node = false ->
  stack_is_too_deep w = false ->
  raw_expression_tree_walker_impl node walker w
  = Returns false
      (mkWorld (context w)
         (elog_output w
          ++ [(NOTICE,
               ("unrecognized node type: "
                ++ format_d (NodeTag_value (nodeTag node)))%string)])).
Proof.
  intros Hnode Hkind Hstack.
  rewrite walker_as_table by assumption.
  rewrite Hkind. reflexivity.
Qed.

Lemma walker_unrecognized_kind_witness :
  raw_expression_tree_walker_impl (E := sample_engine nat)
    (T_Unlisted 76) stop_at_star (mkWorld O [])
  = Returns false
      (mkWorld O [(NOTICE, "unrecognized node type: 1076"%string)]).
Proof.
  apply (walker_unrecognized_kind (E := sample_engine nat)
           (T_Unlisted 76) stop_at_star (mkWorld O []));
    reflexivity.
Defined.

(** CLAIM C10: on a [ColumnRef] and on an [Alias] the walker calls the
    callback on nothing (neither on the [fields] list nor on the [colnames]
    list), logs nothing and returns [false]: whatever the callback, the world
    is left as it was. *)
Theorem walker_ColumnRef_Alias_childless {Ctx : Type} {E : Engine Ctx}
  (fields colnames : Node) (location : Z)
  (walker : tree_walker_callback Ctx) (w : World Ctx) :
  stack_is_too_deep w = false ->
  raw_expression_tree_walker_impl (T_ColumnRef fields location) walker w
  = Returns false w
  /\ raw_expression_tree_walker_impl (T_Alias colnames) walker w
     = Returns false w.
Proof.
  intros Hstack.
  split; rewrite walker_as_table by (reflexivity || assumption);
    reflexivity.
Qed.

Lemma walker_ColumnRef_Alias_childless_witness :
  raw_expression_tree_walker_impl (E := sample_engine nat)
    (T_ColumnRef (T_List [T_String; T_A_Star]) 7) stop_at_star (mkWorld O [])
  = Returns false (mkWorld O [])
  /\ raw_expression_tree_walker_impl (E := sample_engine nat)
       (T_Alias (T_List [T_String; T_A_Star])) stop_at_star (mkWorld O [])
     = Returns false (mkWorld O []).
Proof.
  apply (walker_ColumnRef_Alias_childless (E := sample_engine nat)).
  reflexivity.
Defined.

(** CLAIM C9: applied to the empty input string, the parse entry point
    returns the empty statement sequence ([NIL], the [NULL] list) and no
    error. *)
Theorem pg_query_raw_parse_empty_input
  (raw_parser : string -> Z -> GrammarOutcome) (parser_options : Z) :
  tree (pg_query_raw_parse raw_parser EmptyString parser_options) = NULL
  /\ error (pg_query_raw_parse raw_parser EmptyString parser_options) = None.
Proof.
  split; reflexivity.
Qed.

(** ** Whole-tree traversal with the prescribed callback *)

Lemma node_size_member (n : Node) (l : list Node) :
  In n l -> (node_size n <= list_sum (map node_size l))%nat.
Proof.
  induction l as [| m l IH]; intros Hin.
  - contradiction.
  - simpl. destruct Hin as [<- | Hin]; [lia | specialize (IH Hin); lia].
Qed.

Lemma node_size_CaseWhen (n : Node) (args : list (CaseWhen.t Node)) :
  In n (flat_map (fun when => [CaseWhen.expr when; CaseWhen.result when])
          args) ->
  (node_size n
   < list_sum
       (map (fun when =>
               S (node_size (CaseWhen.expr when)
                  + node_size (CaseWhen.result when))) args))%nat.
Proof.
  induction args as [| when args IH]; intros Hin.
  - contradiction.
  - simpl in Hin |- *.
    destruct Hin as [<- | [<- | Hin]]; [lia | lia | specialize (IH Hin); lia].
Qed.

(** What the walker hands to the callback is smaller than the node. *)
Lemma walk_fields_smaller (node n : Node) :
  In n (walk_fields node) -> (node_size n < node_size node)%nat.
Proof.
  destruct node; simpl; intros Hin;
    try contradiction;
    try (repeat (destruct Hin as [<- | Hin]; [simpl; lia |]);
         contradiction).
  - (* T_List *)
    apply node_size_member in Hin. lia.
  - (* T_CaseExpr *)
    destruct Hin as [<- | Hin]; [lia |].
    apply in_app_or in Hin. destruct Hin as [Hin | [<- | []]]; [| lia].
    apply node_size_CaseWhen in Hin. lia.
Qed.

Lemma node_size_zero (n : Node) : node_size n = O -> is_NULL n = true.
Proof.
  destruct n; simpl; intros Hsize; try reflexivity; discriminate Hsize.
Qed.

Lemma upto_first_app_found (stop : Node -> bool) (l1 l2 : list Node) :
  existsb stop l1 = true ->
  upto_first stop (l1 ++ l2) = upto_first stop l1.
Proof.
  induction l1 as [| n l1 IH]; simpl; intros Hfound.
  - discriminate.
  - destruct (stop n); [reflexivity |].
    rewrite IH by exact Hfound. reflexivity.
Qed.

Lemma upto_first_app_not_found (stop : Node -> bool) (l1 l2 : list Node) :
  existsb stop l1 = false ->
  upto_first stop (l1 ++ l2) = l1 ++ upto_first stop l2.
Proof.
  induction l1 as [| n l1 IH]; simpl; intros Hnone.
  - reflexivity.
  - destruct (stop n); [discriminate |].
    rewrite IH by exact Hnone. reflexivity.
Qed.

Lemma upto_first_not_found (stop : Node -> bool) (l : list Node) :
  existsb stop l = false -> upto_first stop l = l.
Proof.
  intros Hnone.
  rewrite <- (app_nil_r l) at 1.
  rewrite upto_first_app_not_found by exact Hnone.
  apply app_nil_r.
Qed.

Lemma existsb_never (l : list Node) : existsb never l = false.
Proof.
  induction l as [| n l IH]; [reflexivity | exact IH].
Qed.

Lemma my_walker_NULL {E : Engine (list Node)} (stop : Node -> bool)
  (fuel : nat) (w : World (list Node)) :
  my_walker stop fuel NULL w = Returns false w.
Proof. destruct fuel; reflexivity. Qed.

Lemma my_walker_node {E : Engine (list Node)} (stop : Node -> bool)
  (fuel : nat) (n : Node) (w : World (list Node)) :
  is_NULL n = false ->
  my_walker stop (S fuel) n w
  = if stop n
    then Returns true (mkWorld (context w ++ [n]) (elog_output w))
    else raw_expression_tree_walker_impl n (my_walker stop fuel)
           (mkWorld (context w ++ [n]) (elog_output w)).
Proof.
  intros Hn. simpl. rewrite Hn. unfold bind, record_visit.
  destruct (stop n); reflexivity.
Qed.

(** With fuel for the largest of them, the prescribed callback, run over a
    row of pointers, notes the nodes found from them in walk order, up to
    and including the first one it came for, and returns whether there was
    one. *)
Lemma my_walker_walk_order {E : Engine (list Node)} (stop : Node -> bool)
  (fuel : nat) :
  (forall w, stack_is_too_deep w = false) ->
  forall fields : list Node,
    Forall (fun n => (node_size n <= fuel)%nat) fields ->
    exists full : list Node,
      walk_order fields full
      /\ forall w : World (list Node),
          exists w' : World (list Node),
            foreach fields (my_walker stop fuel) w
            = Returns (existsb stop full) w'
            /\ context w' = context w ++ upto_first stop full.
Proof.
  intros Hstack.
  induction fuel as [| fuel IHfuel]; intros fields Hsize.
  - (* no fuel: every pointer is NULL *)
    induction Hsize as [| n fields Hn _ IH].
    + exists []. split; [constructor |].
      intros w. exists w. split; [reflexivity | now rewrite app_nil_r].
    + assert (Hnull : is_NULL n = true) by (apply node_size_zero; lia).
      destruct n; try discriminate Hnull.
      destruct IH as (full & Horder & Hrun).
      exists full. split; [constructor; exact Horder | exact Hrun].
  - induction Hsize as [| n fields Hn _ IH].
    + exists []. split; [constructor |].
      intros w. exists w. split; [reflexivity | now rewrite app_nil_r].
    + destruct IH as (beside & Hbeside & Hrun_beside).
      destruct (is_NULL n) eqn:Hnull.
      * destruct n; try discriminate Hnull.
        exists beside. split; [constructor; exact Hbeside | exact Hrun_beside].
      * assert (Hbelow : exists below,
                   walk_order (walk_fields n) below
                   /\ forall w0, exists w1,
                        raw_expression_tree_walker_impl n
                          (my_walker stop fuel) w0
                        = Returns (existsb stop below) w1
                        /\ context w1 = context w0 ++ upto_first stop below).
        { destruct (walker_recognizes n) eqn:Hkind.
          - destruct (IHfuel (walk_fields n)) as (below & Hbelow & Hrun).
            { apply Forall_forall. intros c Hc.
              apply walk_fields_smaller in Hc. lia. }
            exists below. split; [exact Hbelow |].
            intros w0.
            rewrite walker_as_table by (exact Hnull || apply Hstack).
            rewrite Hkind. apply Hrun.
          - exists []. rewrite (unrecognized_no_fields n Hkind).
            split; [constructor |].
            intros w0.
            rewrite walker_as_table by (exact Hnull || apply Hstack).
            rewrite Hkind. eexists. split; [reflexivity |].
            simpl. now rewrite app_nil_r. }
        destruct Hbelow as (below & Hbelow & Hrun_below).
        exists (n :: below ++ beside).
        split; [constructor; assumption |].
        intros w. cbn [foreach existsb upto_first].
        rewrite run_bind, my_walker_node by exact Hnull.
        destruct (stop n) eqn:Hstop.
        -- eexists. split; reflexivity.
        -- destruct (Hrun_below (mkWorld (context w ++ [n]) (elog_output w)))
             as (w1 & -> & Hctx1).
           simpl in Hctx1. rewrite existsb_app. simpl orb.
           destruct (existsb stop below) eqn:Hfound.
           ++ exists w1. split; [reflexivity |].
              rewrite upto_first_app_found by exact Hfound.
              rewrite Hctx1, <- app_assoc. reflexivity.
           ++ destruct (Hrun_beside w1) as (w2 & -> & Hctx2).
              exists w2. split; [reflexivity |].
              rewrite upto_first_app_not_found by exact Hfound.
              rewrite Hctx2, Hctx1.
              rewrite (upto_first_not_found stop below Hfound).
              rewrite <- !app_assoc. reflexivity.
Qed.

(** Started on a node, the walker with the prescribed callback notes the
    nodes below it in walk order, up to and including the first one the
    callback came for, and returns whether there was one. *)
Lemma my_walker_from_root {E : Engine (list Node)} (stop : Node -> bool)
  (fuel : nat) (root : Node) :
  (forall w, stack_is_too_deep w = false) ->
  (node_size root <= S fuel)%nat ->
  exists full : list Node,
    walk_order (walk_fields root) full
    /\ forall w : World (list Node),
        exists w' : World (list Node),
          raw_expression_tree_walker_impl root (my_walker stop fuel) w
          = Returns (existsb stop full) w'
          /\ context w' = context w ++ upto_first stop full.
Proof.
  intros Hstack Hsize.
  destruct (is_NULL root) eqn:Hroot.
  - destruct root; try discriminate Hroot.
    exists []. split; [constructor |].
    intros w. exists w. split; [reflexivity | now rewrite app_nil_r].
  - destruct (walker_recognizes root) eqn:Hkind.
    + destruct (my_walker_walk_order stop fuel Hstack (walk_fields root))
        as (full & Horder & Hrun).
      { apply Forall_forall. intros n Hn.
        apply walk_fields_smaller in Hn. lia. }
      exists full. split; [exact Horder |].
      intros w.
      rewrite walker_as_table by (exact Hroot || apply Hstack).
      rewrite Hkind. apply Hrun.
    + exists []. rewrite (unrecognized_no_fields root Hkind).
      split; [constructor |].
      intros w.
      rewrite walker_as_table by (exact Hroot || apply Hstack).
      rewrite Hkind. eexists. split; [reflexivity |].
      simpl. now rewrite app_nil_r.
Qed.

(** CLAIM C5: for every callback, the walker returns [true] exactly when the
    callback returns [true] on one of the node's walked fields after having
    returned [false] on all the fields before it, and then the world is the
    one that call left: no later field is visited (the members of an ordered
    sequence are its walked fields, in order); it returns [false] exactly
    when the callback returned [false] on every walked field.  With the
    prescribed callback, which carries this through the subtree, the walk
    visits the nodes below the start node in walk order up to and including
    the first one the callback returns [true] for and no node after it, and
    returns [true] exactly when there is such a node. *)
Theorem walker_stops_at_first_true {Ctx : Type} (E : Engine Ctx)
  (EL : Engine (list Node)) (node : Node)
  (walker : tree_walker_callback Ctx) (w : World Ctx)
  (stop : Node -> bool) (fuel : nat) :
  is_NULL node = false ->
  stack_is_too_deep w = false ->
  (forall w0 : World (list Node), stack_is_too_deep w0 = false) ->
  (node_size node <= S fuel)%nat ->
  (forall w' : World Ctx,
      raw_expression_tree_walker_impl node walker w = Returns true w'
      <-> exists (pre post : list Node) (n : Node) (w1 : World Ctx),
            walk_fields node = pre ++ n :: post
            /\ declined walker pre w w1
            /\ walker n w1 = Returns true w')
  /\ (forall w' : World Ctx,
        raw_expression_tree_walker_impl node walker w = Returns false w'
        <-> exists w1 : World Ctx,
              declined walker (walk_fields node) w w1
              /\ w' = after_switch node w1)
  /\ (exists full : list Node,
        walk_order (walk_fields node) full
        /\ forall wl : World (list Node),
            exists wl' : World (list Node),
              raw_expression_tree_walker_impl node (my_walker stop fuel) wl
              = Returns (existsb stop full) wl'
              /\ context wl' = context wl ++ upto_first stop full).
Proof.
  intros Hnode Hstack HstackL Hsize.
  split; [| split].
  - intros w'. rewrite walker_as_table by assumption.
    destruct (walker_recognizes node) eqn:Hkind.
    + apply foreach_true_iff.
    + rewrite (unrecognized_no_fields node Hkind). split.
      * discriminate.
      * intros (pre & post & n & w1 & Hfields & _).
        destruct pre; discriminate Hfields.
  - intros w'. rewrite walker_as_table by assumption.
    unfold after_switch.
    destruct (walker_recognizes node) eqn:Hkind.
    + rewrite foreach_false_iff. split.
      * intros Hdeclined. exists w'. split; [assumption | reflexivity].
      * intros (w1 & Hdeclined & ->). assumption.
    + rewrite (unrecognized_no_fields node Hkind). split.
      * intros Hrun. injection Hrun as <-.
        exists w. split; [constructor | reflexivity].
      * intros (w1 & Hdeclined & ->).
        inversion Hdeclined; subst. reflexivity.
  - apply my_walker_from_root; assumption.
Qed.

Lemma walker_stops_at_first_true_witness :
  raw_expression_tree_walker_impl (E := sample_engine nat)
    (T_List [NULL; T_A_Star; T_A_Const 4]) stop_at_star (mkWorld O [])
  = Returns true (mkWorld 2%nat [])
  /\ exists full : list Node,
       walk_order (walk_fields sample_select) full
       /\ exists wl' : World (list Node),
            sample_walk is_star 9 sample_select
            = Returns (existsb is_star full) wl'
            /\ context wl' = [] ++ upto_first is_star full.
Proof.
  split.
  - destruct (walker_stops_at_first_true (sample_engine nat)
                (sample_engine (list Node))
                (T_List [NULL; T_A_Star; T_A_Const 4]) stop_at_star
                (mkWorld O []) is_star 4)
      as (Htrue & _ & _);
      [reflexivity | reflexivity | reflexivity | vm_compute; lia |].
    apply Htrue.
    exists [NULL], [T_A_Const 4], T_A_Star, (mkWorld 1%nat []).
    split; [reflexivity |].
    split; [| reflexivity].
    econstructor; [reflexivity | constructor].
  - destruct (walker_stops_at_first_true (sample_engine nat)
                (sample_engine (list Node))
                sample_select stop_at_star (mkWorld O []) is_star 9)
      as (_ & _ & full & Horder & Hrun);
      [reflexivity | reflexivity | reflexivity | vm_compute; lia |].
    exists full. split; [exact Horder |].
    apply (Hrun (mkWorld [] [])).
Defined.

Lemma is_NULL_false (n : Node) : is_NULL n = false -> n <> NULL.
Proof. intros Hn ->. discriminate Hn. Qed.

Lemma reachable_trans (root m n : Node) :
  reachable root m -> reachable m n -> reachable root n.
Proof.
  intros Hm Hn.
  induction Hn as [n Hin Hnull | k n _ IH Hin Hnull].
  - eapply reachable_below; eassumption.
  - eapply reachable_below; eassumption.
Qed.

(** What the walker hands to the callback is, when not [NULL], a node of
    the tree below the one it was called on. *)
Lemma walk_fields_reachable (node n : Node) :
  In n (walk_fields node) -> is_NULL n = false -> reachable node n.
Proof.
  intros Hin Hn. apply is_NULL_false in Hn.
  destruct node; simpl in Hin;
    try contradiction;
    try (apply reachable_field; [simpl; tauto | exact Hn]).
  (* T_CaseExpr: conditions and results sit one level down, in the arms *)
  destruct Hin as [<- | Hin];
    [apply reachable_field; [simpl; tauto | exact Hn] |].
  apply in_app_or in Hin. destruct Hin as [Hin | [<- | []]].
  - apply in_flat_map in Hin. destruct Hin as (when & Hwhen & Hin).
    apply reachable_below with (m := T_CaseWhen when).
    + apply reachable_field; [| discriminate].
      simpl. right. apply in_or_app. left. apply in_map. exact Hwhen.
    + simpl. simpl in Hin. tauto.
    + exact Hn.
  - apply reachable_field; [| exact Hn].
    simpl. right. apply in_or_app. right. left. reflexivity.
Qed.

Lemma walk_order_reachable (root : Node) (fields visited : list Node) :
  walk_order fields visited ->
  (forall c, In c fields -> is_NULL c = false -> reachable root c) ->
  forall n, In n visited -> reachable root n.
Proof.
  intros Horder.
  induction Horder as [| fields visited _ IH
                       | c fields below beside Hc _ IHbelow _ IHbeside];
    intros Hfields n Hn.
  - contradiction.
  - apply IH; [| exact Hn].
    intros d Hd. apply Hfields. right. exact Hd.
  - assert (Hrc : reachable root c)
      by (apply Hfields; [left; reflexivity | exact Hc]).
    destruct Hn as [<- | Hn]; [exact Hrc |].
    apply in_app_or in Hn. destruct Hn as [Hn | Hn].
    + apply IHbelow; [| exact Hn].
      intros d Hd Hdn. apply reachable_trans with (m := c); [exact Hrc |].
      apply walk_fields_reachable; assumption.
    + apply IHbeside; [| exact Hn].
      intros d Hd. apply Hfields. right. exact Hd.
Qed.

(** The walk order of a row of pointers is fixed by the row. *)
Lemma walk_order_deterministic (fields visited visited' : list Node) :
  walk_order fields visited ->
  walk_order fields visited' ->
  visited' = visited.
Proof.
  intros Horder. revert visited'.
  induction Horder as [| fields visited _ IH
                       | c fields below beside Hc _ IHbelow _ IHbeside];
    intros visited' Horder'.
  - inversion Horder'. reflexivity.
  - inversion Horder' as [| fields0 visited0 Hrest
                          | c0 fields0 below0 beside0 Hc0]; subst.
    + apply IH. exact Hrest.
    + discriminate Hc0.
  - inversion Horder' as [| fields0 visited0 Hrest
                          | c0 fields0 below0 beside0 Hc0 Hbelow0 Hbeside0];
      subst.
    + discriminate Hc.
    + rewrite (IHbelow _ Hbelow0), (IHbeside _ Hbeside0). reflexivity.
Qed.

(** CLAIM C1 (as stated, refuted): not every node reachable from the start
    node is visited.  Walking [CASE WHEN a THEN 1 END] with the prescribed
    callback visits [a] and [1] but never the WHEN arm that holds them, and
    walking a common table expression never visits its search clause. *)
Lemma walker_skips_reachable_nodes_counterexample :
  (reachable sample_case (T_CaseWhen sample_when)
   /\ sample_walk never 8 sample_case
      = Returns false (mkWorld [T_ColumnRef NULL 10; T_A_Const 17] [])
   /\ ~ In (T_CaseWhen sample_when) [T_ColumnRef NULL 10; T_A_Const 17])
  /\ (reachable sample_cte (T_CTESearchClause 20)
      /\ exists select : Node,
           sample_walk never 8 sample_cte
           = Returns false (mkWorld [select] [])
           /\ select <> T_CTESearchClause 20).
Proof.
  split; [split; [| split] | split].
  - apply reachable_field; [simpl; tauto | discriminate].
  - reflexivity.
  - intros [Hin | [Hin | []]]; discriminate Hin.
  - apply reachable_field; [simpl; tauto | discriminate].
  - eexists. split; [reflexivity | discriminate].
Qed.

(** CLAIM C1 (amended): started on any raw parse tree with the callback the
    source prescribes (which returns [false] on [NULL], notes the node, and
    hands it back to the walker), never aborted by the callback, and given
    enough call budget, the walker returns [false] after the callback has
    been invoked on the nodes below the start node that the per-kind field
    table leads to, each occurrence once, depth first and left to right in
    the table's field order, which the tree alone fixes, the start node
    itself excluded.  What is visited is reachable from the start node, but
    the WHEN arms of a CASE and the fields the walker deems uninteresting
    are not part of the table, and a node of an unrecognized kind is visited
    but has no walked fields. *)
Theorem walker_visits_in_walk_order {E : Engine (list Node)} (root : Node)
  (fuel : nat) (w : World (list Node)) :
  (forall w0, stack_is_too_deep w0 = false) ->
  (node_size root <= S fuel)%nat ->
  exists (visited : list Node) (w' : World (list Node)),
    walk_order (walk_fields root) visited
    /\ raw_expression_tree_walker_impl root (my_walker never fuel) w
       = Returns false w'
    /\ context w' = context w ++ visited
    /\ (forall n, In n visited -> reachable root n)
    /\ (forall visited', walk_order (walk_fields root) visited' ->
                         visited' = visited).
Proof.
  intros Hstack Hsize.
  destruct (my_walker_from_root never fuel root Hstack Hsize)
    as (full & Horder & Hrun).
  destruct (Hrun w) as (w' & Hw' & Hctx).
  rewrite existsb_never in Hw'.
  rewrite upto_first_not_found in Hctx by apply existsb_never.
  exists full, w'. repeat split; try assumption.
  - apply (walk_order_reachable root (walk_fields root) full Horder).
    apply walk_fields_reachable.
  - intros visited'. apply walk_order_deterministic. exact Horder.
Qed.

Lemma walker_visits_in_walk_order_witness :
  exists (visited : list Node) (w' : World (list Node)),
    walk_order (walk_fields sample_select) visited
    /\ sample_walk never 9 sample_select = Returns false w'
    /\ context w' = [] ++ visited
    /\ (forall n, In n visited -> reachable sample_select n)
    /\ (forall visited', walk_order (walk_fields sample_select) visited' ->
                         visited' = visited).
Proof.
  unfold sample_walk.
  apply (walker_visits_in_walk_order (E := sample_engine (list Node))
           sample_select 9 (mkWorld [] [])).
  - intros w0. reflexivity.
  - vm_compute. lia.
Defined.

(** * Further properties *)

(** ** [leftmostLoc] *)

(** EXTRA X1: on locations (offsets and the sentinel -1) [leftmostLoc] is
    commutative and associative, and it is idempotent on all integers: the
    order in which candidate locations are combined does not matter. *)
Theorem leftmostLoc_comm_assoc (a b c : Z) :
  -1 <= a -> -1 <= b -> -1 <= c ->
  leftmostLoc a b = leftmostLoc b a
  /\ leftmostLoc (leftmostLoc a b) c = leftmostLoc a (leftmostLoc b c)
  /\ leftmostLoc a a = a.
Proof.
  intros Ha Hb Hc.
  pose proof (leftmostLoc_cases a b) as Hab.
  pose proof (leftmostLoc_cases b a) as Hba.
  pose proof (leftmostLoc_cases b c) as Hbc.
  pose proof (leftmostLoc_cases (leftmostLoc a b) c) as Hab_c.
  pose proof (leftmostLoc_cases a (leftmostLoc b c)) as Ha_bc.
  pose proof (leftmostLoc_cases a a) as Haa.
  repeat split; lia.
Qed.

Lemma leftmostLoc_comm_assoc_witness :
  leftmostLoc (-1) 4 = leftmostLoc 4 (-1)
  /\ leftmostLoc (leftmostLoc (-1) 4) 2 = leftmostLoc (-1) (leftmostLoc 4 2)
  /\ leftmostLoc (-1) (-1) = -1.
Proof.
  apply (leftmostLoc_comm_assoc (-1) 4 2); lia.
Defined.

(** EXTRA X2: [leftmostLoc] returns one of its two arguments; the result is
    negative exactly when both are; and it is not right of any argument that
    is known. *)
Theorem leftmostLoc_selects (a b : Z) :
  (leftmostLoc a b = a \/ leftmostLoc a b = b)
  /\ (leftmostLoc a b < 0 <-> a < 0 /\ b < 0)
  /\ (0 <= a -> leftmostLoc a b <= a)
  /\ (0 <= b -> leftmostLoc a b <= b).
Proof.
  destruct (leftmostLoc_cases a b)
    as [(Ha & ->) | [(Ha & Hb & ->) | (Ha & Hb & ->)]]; lia.
Qed.

(** ** [exprLocation] *)

Lemma node_size_CaseWhen_arm (when : CaseWhen.t Node)
  (args : list (CaseWhen.t Node)) :
  In when args ->
  (S (node_size (CaseWhen.expr when) + node_size (CaseWhen.result when))
   <= list_sum
        (map (fun when0 =>
                S (node_size (CaseWhen.expr when0)
                   + node_size (CaseWhen.result when0))) args))%nat.
Proof.
  induction args as [| when0 args IH]; intros Hin.
  - contradiction.
  - simpl. destruct Hin as [-> | Hin]; [lia | specialize (IH Hin); lia].
Qed.

(** Every field of a node is smaller than the node. *)
Lemma subnodes_smaller (node n : Node) :
  In n (subnodes node) -> (node_size n < node_size node)%nat.
Proof.
  destruct node; simpl; intros Hin;
    try contradiction;
    try (repeat (destruct Hin as [<- | Hin]; [simpl; lia |]);
         contradiction).
  - (* T_List *)
    apply node_size_member in Hin. lia.
  - (* T_CaseExpr *)
    destruct Hin as [<- | Hin]; [lia |].
    apply in_app_or in Hin. destruct Hin as [Hin | [<- | []]]; [| lia].
    apply in_map_iff in Hin. destruct Hin as (when & <- & Hwhen).
    apply node_size_CaseWhen_arm in Hwhen. simpl. lia.
Qed.

Lemma reachable_NULL (n : Node) : ~ reachable NULL n.
Proof.
  intros Hreach.
  remember NULL as root eqn:Hroot.
  induction Hreach as [n Hin _ | m n _ IH _ _]; subst.
  - contradiction.
  - apply IH; reflexivity.
Qed.

Lemma stored_in_own (n : Node) (v : Z) :
  node_location n = Some v -> stored_in n v.
Proof.
  intros Hloc. exists n. split; [left; reflexivity | exact Hloc].
Qed.

Lemma stored_in_field (n c : Node) (v : Z) :
  In c (subnodes n) -> stored_in c v -> stored_in n v.
Proof.
  intros Hin (m & Hm & Hloc).
  assert (Hc : c <> NULL).
  { intros ->. destruct Hm as [-> | Hm]; [discriminate Hloc |].
    exact (reachable_NULL m Hm). }
  assert (Hreach : reachable n c) by (apply reachable_field; assumption).
  exists m. split; [right | exact Hloc].
  destruct Hm as [-> | Hm]; [exact Hreach |].
  exact (reachable_trans n c m Hreach Hm).
Qed.

Lemma unknown_or_stored_field (n c : Node) (v : Z) :
  In c (subnodes n) -> unknown_or_stored c v -> unknown_or_stored n v.
Proof.
  intros Hin [-> | Hstored]; [left; reflexivity | right].
  exact (stored_in_field n c v Hin Hstored).
Qed.

Lemma unknown_or_stored_leftmostLoc (n : Node) (a b : Z) :
  unknown_or_stored n a -> unknown_or_stored n b ->
  unknown_or_stored n (leftmostLoc a b).
Proof.
  intros Ha Hb.
  destruct (leftmostLoc_cases a b)
    as [(_ & ->) | [(_ & _ & ->) | (_ & _ & ->)]]; try assumption.
  destruct (Z.min_spec a b) as [(_ & ->) | (_ & ->)]; assumption.
Qed.

(** The loop over the members of a list ends on -1 or on what one of the
    members resolves to. *)
Lemma exprLocation_T_List_member (l : list Node) :
  exprLocation (T_List l) = -1
  \/ exists member, In member l
                    /\ exprLocation (T_List l) = exprLocation member.
Proof.
  induction l as [| n l IH].
  - left. reflexivity.
  - destruct (Z_lt_ge_dec (exprLocation n) 0) as [Hn | Hn].
    + destruct l as [| n' l].
      * right. exists n. split; [left; reflexivity |].
        apply exprLocation_T_List_last.
      * rewrite exprLocation_T_List_unknown by exact Hn.
        destruct IH as [IH | (member & Hin & IH)]; [left; exact IH |].
        right. exists member. split; [right; exact Hin | exact IH].
    + right. exists n. split; [left; reflexivity |].
      apply exprLocation_T_List_known. lia.
Qed.

Lemma exprLocation_unknown_or_stored (n : Node) :
  unknown_or_stored n (exprLocation n).
Proof.
  remember (node_size n) as k eqn:Hk.
  assert (Hle : (node_size n <= k)%nat) by lia. clear Hk.
  revert n Hle. induction k as [| k IH]; intros n Hle.
  - destruct n; simpl in Hle; try lia. left. reflexivity.
  - assert (Hfield : forall c, In c (subnodes n) ->
                               unknown_or_stored n (exprLocation c)).
    { intros c Hc. apply unknown_or_stored_field with (c := c); [exact Hc |].
      apply IH. apply subnodes_smaller in Hc. lia. }
    assert (Hown : forall v, node_location n = Some v ->
                             unknown_or_stored n v).
    { intros v Hv. right. apply stored_in_own, Hv. }
    destruct n;
      first
        [ left; reflexivity
        | match goal with
          | |- unknown_or_stored (T_List ?l) _ =>
              destruct (exprLocation_T_List_member l)
                as [-> | (member & Hin & ->)];
              [left; reflexivity | apply Hfield; exact Hin]
          end
        | cbn [exprLocation];
          repeat apply unknown_or_stored_leftmostLoc;
          first
            [ apply Hown; reflexivity
            | apply Hfield; simpl; tauto
            | apply unknown_or_stored_field with (c := T_TypeName typeName);
              [simpl; tauto | right; apply stored_in_own; reflexivity] ] ].
Qed.

(** EXTRA X3: [exprLocation] never makes up an offset: what it returns is
    the sentinel -1 or the value of the location field of the node itself or
    of a node below it. *)
Theorem exprLocation_is_stored (n : Node) :
  exprLocation n = -1
  \/ exists m : Node,
       (m = n \/ reachable n m) /\ node_location m = Some (exprLocation n).
Proof.
  exact (exprLocation_unknown_or_stored n).
Qed.

(** EXTRA X4: on a tree all of whose location fields are offsets or the
    sentinel -1, [exprLocation] returns an offset or the sentinel -1: there
    "unknown" and "-1" are the same thing. *)
Theorem exprLocation_in_range (n : Node) :
  locations_valid n -> -1 <= exprLocation n.
Proof.
  intros Hvalid.
  destruct (exprLocation_unknown_or_stored n) as [-> | Hstored]; [lia |].
  apply Hvalid, Hstored.
Qed.

(** A node below [root] is a field of [root] or lies below one. *)
Lemma reachable_cases (root n : Node) :
  reachable root n ->
  In n (subnodes root)
  \/ exists c, In c (subnodes root) /\ reachable c n.
Proof.
  intros Hreach.
  induction Hreach as [n Hin _ | m n _ IH Hin Hn].
  - left. exact Hin.
  - right. destruct IH as [Hm | (c & Hc & Hcm)].
    + exists m. split; [exact Hm |].
      apply reachable_field; assumption.
    + exists c. split; [exact Hc |].
      eapply reachable_below; eassumption.
Qed.

Lemma exprLocation_in_range_witness : -1 <= exprLocation sample_a_plus_b.
Proof.
  apply (exprLocation_in_range sample_a_plus_b).
  intros v (m & [-> | Hreach] & Hloc).
  - injection Hloc as <-. lia.
  - apply reachable_cases in Hreach.
    destruct Hreach as [Hin | (c & Hc & Hreach)].
    + simpl in Hin.
      destruct Hin as [<- | [<- | [<- | []]]];
        try discriminate Hloc; injection Hloc as <-; lia.
    + simpl in Hc.
      destruct Hc as [<- | [<- | [<- | []]]];
        try (exfalso; exact (reachable_NULL m Hreach));
        apply reachable_cases in Hreach;
        destruct Hreach as [[<- | []] | (c & [<- | []] & Hreach)];
        try discriminate Hloc;
        exfalso; exact (reachable_NULL m Hreach).
Defined.

(** EXTRA X5: for the kinds whose arm reads the node's own location field
    (the kinds [node_location] has an entry for; a [SortBy] or a
    [CollateClause], whose arm only forwards to the argument, is not among
    them): when that field is known the node resolves to a known location
    that is not right of it; looking at the operands can only move the result
    to the left. *)
Theorem exprLocation_not_right_of_own (node : Node) (loc : Z) :
  node_location node = Some loc ->
  0 <= loc ->
  0 <= exprLocation node <= loc.
Proof.
  intros Hloc Hknown.
  destruct node; simpl in Hloc; try discriminate Hloc;
    injection Hloc as <-; cbn [exprLocation];
    repeat match goal with
           | |- context [leftmostLoc ?x ?y] =>
               pose proof (leftmostLoc_cases x y);
               generalize dependent (leftmostLoc x y); intros
           end;
    lia.
Qed.

Lemma exprLocation_not_right_of_own_witness :
  0 <= exprLocation sample_a_plus_b <= 2.
Proof.
  apply (exprLocation_not_right_of_own sample_a_plus_b 2);
    [reflexivity | lia].
Defined.

(** EXTRA X6: resolving a concatenation of two lists: if the first list
    resolves to a known location, that is the result; otherwise, and if the
    second list is not empty, the result is what the second list resolves
    to.  In particular [NULL] members in front are passed over. *)
Theorem exprLocation_List_app (l1 l2 : list Node) :
  (0 <= exprLocation (T_List l1) ->
   exprLocation (T_List (l1 ++ l2)) = exprLocation (T_List l1))
  /\ (exprLocation (T_List l1) < 0 -> l2 <> [] ->
      exprLocation (T_List (l1 ++ l2)) = exprLocation (T_List l2))
  /\ exprLocation (T_List (NULL :: l2)) = exprLocation (T_List l2).
Proof.
  split; [| split].
  - induction l1 as [| n l1 IH]; intros Hknown.
    + rewrite exprLocation_T_List_nil in Hknown. lia.
    + destruct (Z_lt_ge_dec (exprLocation n) 0) as [Hn | Hn].
      * destruct l1 as [| n' l1].
        -- rewrite exprLocation_T_List_last in Hknown. lia.
        -- rewrite exprLocation_T_List_unknown in Hknown by exact Hn.
           simpl app in *.
           rewrite !exprLocation_T_List_unknown by exact Hn.
           apply IH, Hknown.
      * simpl app. rewrite !exprLocation_T_List_known by lia. reflexivity.
  - induction l1 as [| n l1 IH]; intros Hunknown Hl2.
    + reflexivity.
    + destruct (Z_lt_ge_dec (exprLocation n) 0) as [Hn | Hn].
      * destruct l1 as [| n' l1].
        -- destruct l2 as [| n2 l2]; [contradiction |].
           simpl app. rewrite exprLocation_T_List_unknown by exact Hn.
           reflexivity.
        -- rewrite exprLocation_T_List_unknown in Hunknown by exact Hn.
           simpl app in *.
           rewrite exprLocation_T_List_unknown by exact Hn.
           apply IH; assumption.
      * rewrite exprLocation_T_List_known in Hunknown by lia. lia.
  - destruct l2 as [| n2 l2]; [reflexivity |].
    apply exprLocation_T_List_unknown. simpl. lia.
Qed.

Lemma exprLocation_List_app_witness :
  exprLocation (T_List ([T_A_Star; T_A_Const 6] ++ [T_A_Const 9]))
  = exprLocation (T_List [T_A_Star; T_A_Const 6])
  /\ exprLocation (T_List ([NULL; T_A_Star] ++ [T_A_Const 9]))
     = exprLocation (T_List [T_A_Const 9]).
Proof.
  split.
  - destruct (exprLocation_List_app [T_A_Star; T_A_Const 6] [T_A_Const 9])
      as (Hknown & _ & _).
    apply Hknown. simpl. lia.
  - destruct (exprLocation_List_app [NULL; T_A_Star] [T_A_Const 9])
      as (_ & Hunknown & _).
    apply Hunknown; [simpl; lia | discriminate].
Defined.

(** EXTRA X7: for the kinds that combine their own location with their
    argument list (function calls, operator and boolean expressions): with
    no argument list a known own location is the result; with a first known
    argument the result is the smaller of the two offsets, so a keyword that
    stands right of its leftmost argument does not hide it; with an unknown
    own location the first known argument decides. *)
Theorem exprLocation_args_and_location (node args : Node) (loc : Z)
  (pre post : list Node) (a : Node) :
  args_and_location node = Some (args, loc) ->
  (args = NULL -> 0 <= loc -> exprLocation node = loc)
  /\ (args = T_List (pre ++ a :: post) ->
      Forall (fun n => exprLocation n < 0) pre ->
      0 <= exprLocation a ->
      exprLocation node
      = if loc <? 0 then exprLocation a else Z.min loc (exprLocation a)).
Proof.
  intros Hkind.
  assert (Heq : exprLocation node = leftmostLoc loc (exprLocation args)).
  { destruct node; simpl in Hkind; try discriminate Hkind;
      injection Hkind as <- <-; reflexivity. }
  rewrite Heq. split.
  - intros -> Hloc. apply leftmostLoc_unknown_r. lia.
  - intros -> Hpre Ha.
    rewrite (exprLocation_T_List_first_known pre post a Hpre Ha).
    destruct (Z.ltb_spec loc 0) as [Hloc | Hloc].
    + unfold leftmostLoc.
      destruct (Z.ltb_spec loc 0); [reflexivity | lia].
    + apply leftmostLoc_known; assumption.
Qed.

Lemma exprLocation_args_and_location_witness :
  exprLocation sample_not_between = 0.
Proof.
  destruct (exprLocation_args_and_location sample_not_between
              (T_List [T_A_Expr NULL (T_ColumnRef NULL 0) NULL 9]) 5
              [] [] (T_A_Expr NULL (T_ColumnRef NULL 0) NULL 9) eq_refl)
    as (_ & Hargs).
  apply Hargs; [reflexivity | apply Forall_nil | vm_compute; discriminate].
Defined.




(** ** The walker's errors and effects *)

Lemma foreach_raises_iff {Ctx : Type} (walker : tree_walker_callback Ctx)
  (l : list Node) (w w' : World Ctx) (elevel : ElogLevel) (msg : string) :
  foreach l walker w = Raises elevel msg w'
  <-> exists (pre post : list Node) (n : Node) (w1 : World Ctx),
        l = pre ++ n :: post
        /\ declined walker pre w w1
        /\ walker n w1 = Raises elevel msg w'.
Proof.
  split.
  - revert w. induction l as [| n l IH]; intros w Hrun.
    + discriminate.
    + simpl in Hrun. unfold bind in Hrun.
      destruct (walker n w) as [[|] w1 | elevel1 msg1 w1] eqn:Hn;
        try discriminate.
      * destruct (IH _ Hrun) as (pre & post & m & w2 & -> & Hpre & Hm).
        exists (n :: pre), post, m, w2.
        repeat split; [econstructor; eassumption | exact Hm].
      * exists [], l, n, w. repeat split; [constructor |].
        rewrite Hn. exact Hrun.
  - intros (pre & post & n & w1 & -> & Hpre & Hn).
    induction Hpre as [w | m pre w w1 w2 Hm _ IH].
    + simpl. unfold bind. rewrite Hn. reflexivity.
    + simpl. unfold bind. rewrite Hm. apply IH, Hn.
Qed.

(** EXTRA X9: the walker ends in an error in exactly two ways: the stack
    guard fires, before anything else is done to a non-[NULL] node, and the
    world is left untouched; or the callback raises on one of the node's
    walked fields after having declined on those before it, and the walker
    passes that error on as it is, visiting no later field. *)
Theorem walker_raises_iff {Ctx : Type} {E : Engine Ctx} (node : Node)
  (walker : tree_walker_callback Ctx) (w w' : World Ctx)
  (elevel : ElogLevel) (msg : string) :
  is_NULL node = false ->
  raw_expression_tree_walker_impl node walker w = Raises elevel msg w'
  <-> (stack_is_too_deep w = true
       /\ elevel = ERROR
       /\ msg = "stack depth limit exceeded"%string
       /\ w' = w)
      \/ (stack_is_too_deep w = false
          /\ exists (pre post : list Node) (n : Node) (w1 : World Ctx),
               walk_fields node = pre ++ n :: post
               /\ declined walker pre w w1
               /\ walker n w1 = Raises elevel msg w').
Proof.
  intros Hnode.
  destruct (stack_is_too_deep w) eqn:Hstack.
  - rewrite walker_stack_depth_exceeded by assumption. split.
    + intros Hrun. injection Hrun as <- <- <-. left. repeat split.
    + intros [(_ & -> & -> & ->) | (Hfalse & _)];
        [reflexivity | discriminate Hfalse].
  - rewrite walker_as_table by assumption.
    destruct (walker_recognizes node) eqn:Hkind.
    + rewrite foreach_raises_iff. split.
      * intros Hrun. right. split; [reflexivity | exact Hrun].
      * intros [(Hfalse & _) | (_ & Hrun)];
          [discriminate Hfalse | exact Hrun].
    + rewrite (unrecognized_no_fields node Hkind). split.
      * discriminate.
      * intros [(Hfalse & _) | (_ & pre & post & n & w1 & Hfields & _)];
          [discriminate Hfalse | destruct pre; discriminate Hfields].
Qed.

Lemma walker_raises_iff_witness :
  raw_expression_tree_walker_impl (E := sample_engine nat)
    (T_List [NULL; T_A_Star; T_A_Const 4]) raise_at_star (mkWorld O [])
  = Raises ERROR "star"%string (mkWorld 2%nat []).
Proof.
  apply (walker_raises_iff (E := sample_engine nat)
           (T_List [NULL; T_A_Star; T_A_Const 4]) raise_at_star
           (mkWorld O []) (mkWorld 2%nat []) ERROR "star"%string eq_refl).
  right. split; [reflexivity |].
  exists [NULL], [T_A_Const 4], T_A_Star, (mkWorld 1%nat []).
  split; [reflexivity |].
  split; [| reflexivity].
  econstructor; [reflexivity | constructor].
Defined.

Lemma foreach_preserves {Ctx : Type} (walker : tree_walker_callback Ctx)
  (I : World Ctx -> Prop) :
  (forall n w, I w ->
               match walker n w with
               | Returns _ w' => I w'
               | Raises _ _ w' => I w'
               end) ->
  forall (l : list Node) (w : World Ctx),
    I w ->
    match foreach l walker w with
    | Returns _ w' => I w'
    | Raises _ _ w' => I w'
    end.
Proof.
  intros Hwalker l. induction l as [| n l IH]; intros w Hw.
  - exact Hw.
  - simpl. unfold bind. specialize (Hwalker n w Hw).
    destruct (walker n w) as [[|] w1 | elevel msg w1].
    + exact Hwalker.
    + apply IH, Hwalker.
    + exact Hwalker.
Qed.

(** EXTRA X10: on a node of a kind it has an arm for, the walker changes
    nothing by itself: any property of the world that every call of the
    callback preserves still holds when the walker returns or raises,
    whether or not the stack guard fires. *)
Theorem walker_preserves_invariant {Ctx : Type} {E : Engine Ctx}
  (node : Node) (walker : tree_walker_callback Ctx)
  (I : World Ctx -> Prop) (w : World Ctx) :
  walker_recognizes node = true ->
  (forall n w0, I w0 ->
                match walker n w0 with
                | Returns _ w' => I w'
                | Raises _ _ w' => I w'
                end) ->
  I w ->
  match raw_expression_tree_walker_impl node walker w with
  | Returns _ w' => I w'
  | Raises _ _ w' => I w'
  end.
Proof.
  intros Hkind Hwalker Hw.
  assert (Hnode : is_NULL node = false)
    by (destruct node; [discriminate Hkind | reflexivity ..]).
  destruct (stack_is_too_deep w) eqn:Hstack.
  - rewrite walker_stack_depth_exceeded by assumption. exact Hw.
  - rewrite walker_as_table by assumption. rewrite Hkind.
    apply foreach_preserves; assumption.
Qed.

Lemma walker_preserves_invariant_witness :
  match raw_expression_tree_walker_impl (E := sample_engine nat)
          sample_select warn_and_decline (mkWorld 7%nat []) with
  | Returns _ w' => context w' = 7%nat
  | Raises _ _ w' => context w' = 7%nat
  end.
Proof.
  apply (walker_preserves_invariant (E := sample_engine nat)
           sample_select warn_and_decline (fun w => context w = 7%nat)).
  - reflexivity.
  - intros n w0 Hw0. exact Hw0.
  - reflexivity.
Defined.

Lemma unrecognized_among_app (stop : Node -> bool) (l1 l2 : list Node) :
  unrecognized_among stop (l1 ++ l2)
  = unrecognized_among stop l1 ++ unrecognized_among stop l2.
Proof. apply filter_app. Qed.

Lemma walk_order_no_fields (visited : list Node) :
  walk_order [] visited -> visited = [].
Proof. intros Horder. inversion Horder. reflexivity. Qed.

(** When the prescribed callback comes back from a row of pointers, it has
    logged one notice for each node it handed to the walker that the walker
    has no arm for, in the order of the visits. *)
Lemma my_walker_notices {E : Engine (list Node)} (stop : Node -> bool)
  (fields full : list Node) :
  (forall w, stack_is_too_deep w = false) ->
  walk_order fields full ->
  forall (fuel : nat) (w w' : World (list Node)) (b : bool),
    foreach fields (my_walker stop fuel) w = Returns b w' ->
    b = existsb stop full
    /\ elog_output w'
       = elog_output w
         ++ map unrecognized_notice
              (unrecognized_among stop (upto_first stop full)).
Proof.
  intros Hstack Horder.
  induction Horder as [| fields visited _ IH
                       | c fields below beside Hc Hbelow IHbelow _ IHbeside];
    intros fuel w w' b Hrun.
  - injection Hrun as <- <-. split; [reflexivity |].
    simpl. now rewrite app_nil_r.
  - cbn [foreach] in Hrun. rewrite run_bind, my_walker_NULL in Hrun.
    apply (IH fuel w w' b Hrun).
  - cbn [foreach] in Hrun. rewrite run_bind in Hrun.
    destruct fuel as [| fuel].
    { simpl in Hrun. rewrite Hc in Hrun. discriminate Hrun. }
    rewrite my_walker_node in Hrun by exact Hc.
    cbn [existsb upto_first].
    destruct (stop c) eqn:Hstop.
    + injection Hrun as <- <-. split; [reflexivity |].
      unfold unrecognized_among. simpl. rewrite Hstop. simpl.
      now rewrite app_nil_r.
    + rewrite walker_as_table in Hrun by (exact Hc || apply Hstack).
      simpl orb. rewrite existsb_app.
      unfold unrecognized_among at 1. cbn [filter]. rewrite Hstop.
      fold (unrecognized_among stop (upto_first stop (below ++ beside))).
      destruct (walker_recognizes c) eqn:Hkind; cbn [negb andb].
      * destruct (foreach (walk_fields c) (my_walker stop fuel) _)
          as [b1 w1 | elevel msg w1] eqn:Hrun1; [| discriminate Hrun].
        destruct (IHbelow fuel _ w1 b1 Hrun1) as (-> & Hlog1).
        simpl in Hlog1.
        destruct (existsb stop below) eqn:Hfound.
        -- injection Hrun as <- <-. split; [reflexivity |].
           rewrite upto_first_app_found by exact Hfound. exact Hlog1.
        -- destruct (IHbeside (S fuel) w1 w' b Hrun) as (-> & Hlog2).
           split; [reflexivity |].
           rewrite upto_first_app_not_found by exact Hfound.
           rewrite unrecognized_among_app, map_app, Hlog2, Hlog1.
           rewrite (upto_first_not_found stop below Hfound).
           now rewrite app_assoc.
      * rewrite (unrecognized_no_fields c Hkind) in Hbelow.
        apply walk_order_no_fields in Hbelow. subst below.
        destruct (IHbeside (S fuel) _ w' b Hrun) as (-> & Hlog2).
        split; [reflexivity |].
        rewrite Hlog2. simpl. now rewrite <- app_assoc.
Qed.

(** EXTRA X11: a whole walk with the prescribed callback logs exactly one
    "unrecognized node type" notice for each node it hands to the walker
    that the walker has no arm for (the start node included), in the order
    of the visits, and nothing else; a tree of recognized kinds is walked
    silently. *)
Theorem walker_notices_in_walk_order {E : Engine (list Node)}
  (stop : Node -> bool) (root : Node) (fuel : nat)
  (w : World (list Node)) :
  is_NULL root = false ->
  (forall w0, stack_is_too_deep w0 = false) ->
  (node_size root <= S fuel)%nat ->
  exists (full : list Node) (w' : World (list Node)),
    walk_order (walk_fields root) full
    /\ raw_expression_tree_walker_impl root (my_walker stop fuel) w
       = Returns (existsb stop full) w'
    /\ elog_output w'
       = elog_output w
         ++ map unrecognized_notice
              ((if walker_recognizes root then [] else [root])
               ++ unrecognized_among stop (upto_first stop full)).
Proof.
  intros Hroot Hstack Hsize.
  destruct (my_walker_from_root stop fuel root Hstack Hsize)
    as (full & Horder & Hrun).
  destruct (Hrun w) as (w' & Hw' & _).
  exists full, w'. split; [exact Horder |]. split; [exact Hw' |].
  rewrite walker_as_table in Hw' by (exact Hroot || apply Hstack).
  destruct (walker_recognizes root) eqn:Hkind.
  - apply (my_walker_notices stop _ full Hstack Horder fuel w w' _ Hw').
  - rewrite (unrecognized_no_fields root Hkind) in Horder.
    rewrite (walk_order_no_fields full Horder).
    injection Hw' as _ <-. reflexivity.
Qed.

Lemma walker_notices_in_walk_order_witness :
  exists (full : list Node) (w' : World (list Node)),
    walk_order (walk_fields sample_mixed) full
    /\ sample_walk is_star 9 sample_mixed = Returns (existsb is_star full) w'
    /\ elog_output w'
       = [] ++ map (unrecognized_notice (E := sample_engine (list Node)))
                 ((if walker_recognizes sample_mixed then []
                   else [sample_mixed])
                  ++ unrecognized_among is_star (upto_first is_star full)).
Proof.
  unfold sample_walk.
  apply (walker_notices_in_walk_order (E := sample_engine (list Node))
           is_star sample_mixed 9 (mkWorld [] [])).
  - reflexivity.
  - intros w0. reflexivity.
  - vm_compute. lia.
Defined.

(** EXTRA X12: walking a concatenation of two lists is walking the first
    and then, unless the callback stopped the walk there, the second, from
    the world the first walk left. *)
Theorem walker_List_app {Ctx : Type} {E : Engine Ctx} (l1 l2 : list Node)
  (walker : tree_walker_callback Ctx) (w : World Ctx) :
  (forall w0, stack_is_too_deep w0 = false) ->
  raw_expression_tree_walker_impl (T_List (l1 ++ l2)) walker w
  = match raw_expression_tree_walker_impl (T_List l1) walker w with
    | Returns true w1 => Returns true w1
    | Returns false w1 =>
        raw_expression_tree_walker_impl (T_List l2) walker w1
    | Raises elevel msg w1 => Raises elevel msg w1
    end.
Proof.
  intros Hstack.
  rewrite !walker_as_table by (reflexivity || apply Hstack).
  cbn [walker_recognizes walk_fields].
  rewrite foreach_app, run_bind.
  destruct (foreach l1 walker w) as [[|] w1 | elevel msg w1];
    try reflexivity.
  rewrite walker_as_table by (reflexivity || apply Hstack).
  reflexivity.
Qed.

Lemma walker_List_app_witness :
  raw_expression_tree_walker_impl (E := sample_engine nat)
    (T_List ([NULL; T_A_Const 4] ++ [T_A_Star; T_A_Const 8]))
    stop_at_star (mkWorld O [])
  = Returns true (mkWorld 3%nat []).
Proof.
  rewrite (walker_List_app (E := sample_engine nat)
             [NULL; T_A_Const 4] [T_A_Star; T_A_Const 8] stop_at_star
             (mkWorld O [])).
  - reflexivity.
  - intros w0. reflexivity.
Defined.

(** ** What a whole walk cannot do *)

Lemma reachable_smaller (root n : Node) :
  reachable root n -> (node_size n < node_size root)%nat.
Proof.
  intros Hreach.
  induction Hreach as [n Hin _ | m n _ IH Hin _].
  - apply subnodes_smaller, Hin.
  - apply subnodes_smaller in Hin. lia.
Qed.

Lemma list_sum_CaseWhen_fields (args : list (CaseWhen.t Node)) :
  (list_sum
     (map node_size
        (flat_map (fun when => [CaseWhen.expr when; CaseWhen.result when])
           args))
   <= list_sum
        (map (fun when =>
                S (node_size (CaseWhen.expr when)
                   + node_size (CaseWhen.result when))) args))%nat.
Proof.
  induction args as [| when args IH]; simpl; lia.
Qed.

(** The walked fields of a node weigh less than the node. *)
Lemma walk_fields_weight (node : Node) :
  is_NULL node = false ->
  (list_sum (map node_size (walk_fields node)) < node_size node)%nat.
Proof.
  intros Hnode.
  destruct node; try discriminate Hnode; simpl; try lia.
  (* T_CaseExpr *)
  rewrite map_app, list_sum_app. simpl.
  pose proof (list_sum_CaseWhen_fields args). lia.
Qed.

Lemma walk_order_length (fields visited : list Node) :
  walk_order fields visited ->
  (List.length visited <= list_sum (map node_size fields))%nat.
Proof.
  intros Horder.
  induction Horder as [| fields visited _ IH
                       | c fields below beside Hc _ IHbelow _ IHbeside].
  - simpl. lia.
  - simpl. exact IH.
  - simpl. rewrite List.length_app.
    pose proof (walk_fields_weight c Hc). lia.
Qed.

(** EXTRA X13: a whole walk with the prescribed callback never visits the
    start node itself, visits only nodes smaller than it, and makes fewer
    visits than the tree has nodes. *)
Theorem walker_never_visits_start {E : Engine (list Node)} (root : Node)
  (fuel : nat) (w : World (list Node)) :
  is_NULL root = false ->
  (forall w0, stack_is_too_deep w0 = false) ->
  (node_size root <= S fuel)%nat ->
  exists (visited : list Node) (w' : World (list Node)),
    raw_expression_tree_walker_impl root (my_walker never fuel) w
    = Returns false w'
    /\ context w' = context w ++ visited
    /\ ~ In root visited
    /\ (forall n, In n visited -> (node_size n < node_size root)%nat)
    /\ (List.length visited < node_size root)%nat.
Proof.
  intros Hroot Hstack Hsize.
  destruct (my_walker_from_root never fuel root Hstack Hsize)
    as (full & Horder & Hrun).
  destruct (Hrun w) as (w' & Hw' & Hctx).
  rewrite existsb_never in Hw'.
  rewrite upto_first_not_found in Hctx by apply existsb_never.
  assert (Hsmaller : forall n, In n full ->
                               (node_size n < node_size root)%nat).
  { intros n Hn. apply reachable_smaller.
    apply (walk_order_reachable root (walk_fields root) full Horder);
      [apply walk_fields_reachable | exact Hn]. }
  exists full, w'. repeat split; try assumption.
  - intros Hin. apply Hsmaller in Hin. lia.
  - pose proof (walk_order_length _ _ Horder).
    pose proof (walk_fields_weight root Hroot). lia.
Qed.

Lemma walker_never_visits_start_witness :
  exists (visited : list Node) (w' : World (list Node)),
    sample_walk never 9 sample_select = Returns false w'
    /\ context w' = [] ++ visited
    /\ ~ In sample_select visited
    /\ (forall n, In n visited ->
                  (node_size n < node_size sample_select)%nat)
    /\ (List.length visited < node_size sample_select)%nat.
Proof.
  unfold sample_walk.
  apply (walker_never_visits_start (E := sample_engine (list Node))
           sample_select 9 (mkWorld [] [])).
  - reflexivity.
  - intros w0. reflexivity.
  - vm_compute. lia.
Defined.
